(** * SciTok: feed acquisition, caching, ranking and pagination

    A shallow embedding of the logic of [src/app/page.tsx] (the [SciTokApp]
    component) and the properties of its feed engine.

    Conventions of the embedding.
    - JavaScript numbers that the code only counts with or compares
      (indices, scores, years, pixel coordinates) are integers ([Z] or [nat]).
    - JavaScript strings are [string]; one character stands for one UTF-16
      code unit, so [String.length] is [.length] on ASCII text.
    - A React state variable is a field of [AppState]; a function created by
      [useCallback] reads the state of the render that created it, which is
      the [AppState] handed to it here, and changes the state only through
      the setter calls it makes, which are recorded as [action]s.
    - The object [likedTopics] is an association list in insertion order,
      which is the order [Object.entries] enumerates non-index keys in.
    - Event handlers belong to a render too.  [step] handles an event on
      the state current then and renders; [Page], [dispatch] and [render]
      keep the state of the last render beside the state React holds, so
      that several events can be handled before a render.  In the same
      way [fetchFrom] applies the setter calls of a fetch created by one
      render to the state current when they run. *)

From Stdlib Require Import ZArith Ascii String List Permutation Sorted Lia.
From stdpp Require Import base option list gmap strings pretty.

#[local] Set Warnings "-register-all".

Local Open Scope string_scope.
Local Open Scope list_scope.
Local Open Scope Z_scope.

(** ** Data model (page.tsx, lines 10-46) *)

Record Author := mkAuthor { name : string }.

Inductive Source := semantic | arxiv.

Record Article := mkArticle {
  id : string;
  title : string;
  authors : list Author;
  abstract : string;
  url : string;
  year : Z;
  source : Source
}.

Record UserPreferences := mkPrefs {
  likedArticles : list string;
  savedArticles : list string;
  likedTopics : list (string * Z)
}.

Definition SEARCH_TERMS : list string :=
  [ "science"; "biology"; "ai"; "data"; "physics"; "chemistry"; "technology";
    "research"; "machine learning"; "neuroscience"; "mathematics";
    "computer science"; "psychology"; "medicine"; "engineering" ].

(** The initial value of the [userPreferences] state (lines 57-61). *)
Definition initialPreferences : UserPreferences :=
  {| likedArticles := []; savedArticles := []; likedTopics := [] |}.

(** ** Term ranking (getRecommendedTerms, lines 82-90) *)

(** [Array.prototype.sort] with the comparator [(a, b) => b - a] on the
    scores: a stable sort into descending order.  [insertDesc] puts an entry
    in front of the first entry with a strictly smaller score, and [sortDesc]
    inserts from the right, so entries with equal scores keep their order. *)
Fixpoint insertDesc (e : string * Z) (l : list (string * Z)) : list (string * Z) :=
  match l with
  | [] => [e]
  | y :: l' => if e.2 <? y.2 then y :: insertDesc e l' else e :: y :: l'
  end.

Definition sortDesc (l : list (string * Z)) : list (string * Z) :=
  foldr insertDesc [] l.

Definition getRecommendedTerms (prefs : UserPreferences) : list string :=
  let topicScores := likedTopics prefs in
  let sortedTopics := map fst (take 5 (sortDesc topicScores)) in
  if (0 <? length sortedTopics)%nat then sortedTopics ++ SEARCH_TERMS
  else SEARCH_TERMS.

(** Descending order of the scores of a list of entries. *)
Definition descending (l : list (string * Z)) : Prop :=
  StronglySorted (fun a b => b.2 <= a.2) l.

(** ** Preference store: likes (handleLike, lines 274-309) *)

(** [String.prototype.toLowerCase] on ASCII text. *)
Definition lowerAscii (c : ascii) : ascii :=
  let n := nat_of_ascii c in
  if ((65 <=? n) && (n <=? 90))%nat then ascii_of_nat (n + 32) else c.

Fixpoint toLowerCase (s : string) : string :=
  match s with
  | EmptyString => EmptyString
  | String c s' => String (lowerAscii c) (toLowerCase s')
  end.

(** [text.includes(needle)]: [needle] occurs in [text] at some position. *)
Fixpoint includes (text needle : string) : bool :=
  String.prefix needle text ||
  match text with
  | EmptyString => false
  | String _ rest => includes rest needle
  end.

(** [topics[term]] on the object: [None] is [undefined]. *)
Fixpoint getScore (topics : list (string * Z)) (term : string) : option Z :=
  match topics with
  | [] => None
  | e :: rest => if decide (e.1 = term) then Some e.2 else getScore rest term
  end.

(** [topics[term] = v]: an own key keeps its position, a new key goes last. *)
Fixpoint setScore (topics : list (string * Z)) (term : string) (v : Z)
  : list (string * Z) :=
  match topics with
  | [] => [(term, v)]
  | e :: rest =>
      if decide (e.1 = term) then (term, v) :: rest
      else e :: setScore rest term v
  end.

(** The value of [x || 0] for a score [x] that may be [undefined]. *)
Definition orZero (x : option Z) : Z :=
  match x with
  | Some v => if v =? 0 then 0 else v
  | None => 0
  end.

(** One round of the [forEach] body (lines 289-291). *)
Definition likeTerm (text : string) (newLikedTopics : list (string * Z))
  (term : string) : list (string * Z) :=
  if includes text (toLowerCase term)
  then setScore newLikedTopics term (orZero (getScore newLikedTopics term) + 1)
  else newLikedTopics.

(** The text the topics are extracted from (line 287): title, one space,
    abstract, lowercased. *)
Definition likeText (article : Article) : string :=
  toLowerCase (title article +:+ " " +:+ abstract article).

(** [handleLike] returns the record it hands to [savePreferences]. *)
Definition handleLike (prefs : UserPreferences) (article : Article)
  : UserPreferences :=
  let isLiked := bool_decide (id article ∈ likedArticles prefs) in
  let newLikedArticles :=
    if isLiked then filter (fun i => i ≠ id article) (likedArticles prefs)
    else likedArticles prefs ++ [id article] in
  let newLikedTopics :=
    if negb isLiked
    then fold_left (likeTerm (likeText article)) SEARCH_TERMS (likedTopics prefs)
    else likedTopics prefs in
  {| likedArticles := newLikedArticles;
     savedArticles := savedArticles prefs;
     likedTopics := newLikedTopics |}.

(** The score of a term as the ranking reads it: an absent key counts 0. *)
Definition score (topics : list (string * Z)) (term : string) : Z :=
  default 0 (getScore topics term).

(** ** Component state *)

Record AppState := mkState {
  articles : list Article;
  currentIndex : Z;
  loading : bool;
  userPreferences : UserPreferences;
  cache : gmap string (list Article);
  usedCacheKeys : gset string
}.

Definition initialState : AppState :=
  {| articles := []; currentIndex := 0; loading := false;
     userPreferences := initialPreferences; cache := ∅; usedCacheKeys := ∅ |}.

(** ** Fetch and cache manager (fetchArticles, lines 92-164) *)

(** One entry of [data.data] in the provider's answer; every field may be
    missing. *)
Record Paper := mkPaper {
  paperId : option string;
  p_title : option string;
  p_authors : option (list Author);
  p_abstract : option string;
  p_url : option string;
  p_year : option Z
}.

(** What [await fetch(url)] followed by [await response.json()] gives:
    a rejection or a syntax error, or a body whose [data] field is missing
    or an array of papers. *)
Inductive Response :=
| NetworkError
| Json (data : option (list Paper)).

(** What one iteration of the attempt loop takes from outside the program:
    the two random draws as the values of their [Math.floor] expressions,
    the provider's answer to the query of this iteration, the value of the
    fallback id template for the i-th kept paper, and the current year. *)
Record Oracle := mkOracle {
  randomTerm : nat;
  randomOffset : nat;
  response : Response;
  synthId : nat -> string;
  currentYear : Z
}.

(** The setter calls and outside effects of [fetchArticles], in order. *)
Inductive action :=
| SetLoading (b : bool)
| FetchUrl (term : string) (offset : nat)
| ConsoleError (attempt : nat)
| SetCache (cacheKey : string) (batch : list Article)
| SetUsedCacheKeys (cacheKey : string)
| LocalStorageSetItem (key : string) (batch : list Article)
| SetArticles (newArticles : list Article).

Definition truthyStr (o : option string) : bool :=
  match o with
  | Some s => negb (String.eqb s "")
  | None => false
  end.

(** The filter of line 127. *)
Definition qualifies (paper : Paper) : bool :=
  truthyStr (p_abstract paper) && truthyStr (p_title paper) &&
  (100 <? String.length (default "" (p_abstract paper)))%nat.

(** The map of lines 128-136, for the paper at position [i] of the filtered
    array. *)
Definition toArticle (o : Oracle) (i : nat) (paper : Paper) : Article :=
  {| id := if truthyStr (paperId paper) then default "" (paperId paper)
           else synthId o i;
     title := default "" (p_title paper);
     authors := default [] (p_authors paper);
     abstract := default "" (p_abstract paper);
     url := if truthyStr (p_url paper) then default "" (p_url paper) else "#";
     year := match p_year paper with
             | Some y => if y =? 0 then currentYear o else y
             | None => currentYear o
             end;
     source := semantic |}.

Definition fetchedArticles (o : Oracle) (papers : list Paper) : list Article :=
  imap (toArticle o) (filter (fun p => qualifies p = true) papers).

Definition cacheKey (term : string) (offset : nat) : string :=
  term +:+ "-" +:+ pretty offset.

Definition maxAttempts : nat := 3.

Record LoopState := mkLoop {
  attempts : nat;
  newArticles : list Article;
  log : list action
}.

(** The term of an iteration: [recommendedTerms[i]], which is [undefined]
    out of range and prints as such in the key. *)
Definition drawTerm (recommendedTerms : list string) (o : Oracle) : string :=
  default "undefined" (recommendedTerms !! randomTerm o).

Definition drawKey (recommendedTerms : list string) (o : Oracle) : string :=
  cacheKey (drawTerm recommendedTerms o) (randomOffset o).

(** The body of the [while] loop (lines 104-149).  The flag is [true] when
    the body leaves the loop by [break]. *)
Definition loopBody (snap : AppState) (recommendedTerms : list string)
  (o : Oracle) (ls : LoopState) : LoopState * bool :=
  let term := drawTerm recommendedTerms o in
  let offset := randomOffset o in
  let key := cacheKey term offset in
  if bool_decide (key ∈ usedCacheKeys snap) then
    (mkLoop (S (attempts ls)) (newArticles ls) (log ls), false)
  else
    match cache snap !! key with
    | Some cachedArticles => (mkLoop (attempts ls) cachedArticles (log ls), true)
    | None =>
        let asked := log ls ++ [FetchUrl term offset] in
        let unchanged := mkLoop (S (attempts ls)) (newArticles ls) asked in
        match response o with
        | NetworkError =>
            (mkLoop (S (attempts ls)) (newArticles ls)
               (asked ++ [ConsoleError (attempts ls + 1)]), false)
        | Json None => (unchanged, false)
        | Json (Some papers) =>
            if (0 <? length papers)%nat then
              let fetched := fetchedArticles o papers in
              if (0 <? length fetched)%nat then
                (mkLoop (S (attempts ls)) fetched
                   (asked ++ [SetCache key fetched; SetUsedCacheKeys key;
                              LocalStorageSetItem ("scitok-" +:+ key) fetched]),
                 false)
              else (unchanged, false)
            else (unchanged, false)
        end
    end.

(** The [while] loop.  The iteration that starts with [attempts = n] takes
    the n-th oracle: an iteration that stays in the loop increments
    [attempts].  [fuel] bounds the number of iterations. *)
Fixpoint whileLoop (fuel : nat) (snap : AppState) (recommendedTerms : list string)
  (env : nat -> Oracle) (ls : LoopState) : LoopState :=
  match fuel with
  | O => ls
  | S fuel' =>
      if ((length (newArticles ls) =? 0) && (attempts ls <? maxAttempts))%nat then
        let (ls', brk) := loopBody snap recommendedTerms (env (attempts ls)) ls in
        if brk then ls' else whileLoop fuel' snap recommendedTerms env ls'
      else ls
  end.

Definition runLoop (snap : AppState) (env : nat -> Oracle) : LoopState :=
  whileLoop (S maxAttempts) snap (getRecommendedTerms (userPreferences snap)) env
    (mkLoop 0 [] []).

(** [fetchArticles] as created by the render with state [snap]: the list of
    its setter calls and effects. *)
Definition fetchArticles (snap : AppState) (env : nat -> Oracle) : list action :=
  if loading snap then []
  else
    let ls := runLoop snap env in
    [SetLoading true] ++ log ls ++
    (if (0 <? length (newArticles ls))%nat then [SetArticles (newArticles ls)] else []) ++
    [SetLoading false].

(** The updater of [setArticles] (lines 153-157). *)
Definition appendUnique (prev newArticles : list Article) : list Article :=
  let existingIds := map id prev in
  let uniqueNewArticles := filter (fun a => id a ∉ existingIds) newArticles in
  prev ++ uniqueNewArticles.

Definition applyAction (st : AppState) (a : action) : AppState :=
  match a with
  | SetLoading b =>
      mkState (articles st) (currentIndex st) b (userPreferences st)
        (cache st) (usedCacheKeys st)
  | SetCache k batch =>
      mkState (articles st) (currentIndex st) (loading st) (userPreferences st)
        (<[k := batch]> (cache st)) (usedCacheKeys st)
  | SetUsedCacheKeys k =>
      mkState (articles st) (currentIndex st) (loading st) (userPreferences st)
        (cache st) (usedCacheKeys st ∪ {[k]})
  | SetArticles batch =>
      mkState (appendUnique (articles st) batch) (currentIndex st) (loading st)
        (userPreferences st) (cache st) (usedCacheKeys st)
  | FetchUrl _ _ | ConsoleError _ | LocalStorageSetItem _ _ => st
  end.

Definition applyActions (st : AppState) (l : list action) : AppState :=
  fold_left applyAction l st.

(** A fetch that runs from the current state to its end. *)
Definition fetchStep (st : AppState) (env : nat -> Oracle) : AppState :=
  applyActions st (fetchArticles st env).

(** A session of fetches, one after the other, each created by the render
    of the state it starts from. *)
Definition session (st : AppState) (envs : list (nat -> Oracle)) : AppState :=
  fold_left fetchStep envs st.

(** An action that consumes the key [k]: a query to the provider for it, or
    storing a batch under it, in memory or in durable storage. *)
Definition touchesKey (k : string) (a : action) : Prop :=
  match a with
  | FetchUrl term offset => cacheKey term offset = k
  | SetCache k' _ | SetUsedCacheKeys k' => k' = k
  | LocalStorageSetItem key _ => key = "scitok-" +:+ k
  | SetLoading _ | ConsoleError _ | SetArticles _ => False
  end.

(** The actions the attempt loop logs: all but the calls of [setLoading] and
    [setArticles], which [fetchArticles] makes around the loop. *)
Definition loopAction (a : action) : Prop :=
  match a with
  | SetLoading _ | SetArticles _ => False
  | _ => True
  end.

(** Every cached key is also a used key. *)
Definition cachedKeysUsed (st : AppState) : Prop :=
  dom (cache st) ⊆ usedCacheKeys st.


(** ** Pagination (lines 172-254 and 372-382) *)

Inductive invocation := CallFetchArticles.

(** The buffer-low effect (lines 172-176): the calls it makes when it runs
    in the render with state [st]. *)
Definition bufferLowEffect (st : AppState) : list invocation :=
  if (Z.of_nat (length (articles st)) - currentIndex st <=? 3) && negb (loading st)
  then [CallFetchArticles]
  else [].

(** The calls of the first commit: the mount effect (lines 167-169) calls
    [fetchArticles], and then the buffer-low effect runs in the same render,
    the one of the initial state. *)
Definition firstCommitCalls : list invocation :=
  [CallFetchArticles] ++ bufferLowEffect initialState.

(** The quantity the specification calls [remaining]. *)
Definition remaining (st : AppState) : Z :=
  Z.of_nat (length (articles st)) - 1 - currentIndex st.

Definition setCurrentIndex (f : Z -> Z) (st : AppState) : AppState :=
  mkState (articles st) (f (currentIndex st)) (loading st) (userPreferences st)
    (cache st) (usedCacheKeys st).

Definition goToNext (st : AppState) : AppState :=
  if currentIndex st <? Z.of_nat (length (articles st)) - 1
  then setCurrentIndex (fun prev => prev + 1) st
  else st.

Definition goToPrevious (st : AppState) : AppState :=
  if 0 <? currentIndex st
  then setCurrentIndex (fun prev => prev - 1) st
  else st.

(** The [if / else if] that the wheel, key and touch handlers share; [down]
    and [up] are the handler's own tests of its event. *)
Definition navigate (down up : bool) (st : AppState) : AppState :=
  if down && (currentIndex st <? Z.of_nat (length (articles st)) - 1)
  then setCurrentIndex (fun prev => prev + 1) st
  else if up && (0 <? currentIndex st)
  then setCurrentIndex (fun prev => prev - 1) st
  else st.

(** The variables local to one run of the scroll effect (lines 180, 216). *)
Record Locals := mkLocals {
  isProcessing : bool;
  touchStartY : Z
}.

Definition freshLocals : Locals := mkLocals false 0.

Definition handleWheel (deltaY : Z) (p : AppState * Locals) : AppState * Locals :=
  let (st, loc) := p in
  if isProcessing loc then p
  else (navigate (0 <? deltaY) (deltaY <? 0) st, mkLocals true (touchStartY loc)).

Definition handleKeyDown (key : string) (p : AppState * Locals) : AppState * Locals :=
  let (st, loc) := p in
  if isProcessing loc then p
  else (navigate (String.eqb key "ArrowDown") (String.eqb key "ArrowUp") st,
        mkLocals true (touchStartY loc)).

Definition handleTouchStart (clientY : Z) (p : AppState * Locals) : AppState * Locals :=
  let (st, loc) := p in (st, mkLocals (isProcessing loc) clientY).

Definition handleTouchEnd (clientY : Z) (p : AppState * Locals) : AppState * Locals :=
  let (st, loc) := p in
  if isProcessing loc then p
  else
    let touchEndY := clientY in
    let diff := touchStartY loc - touchEndY in
    if 50 <? Z.abs diff
    then (navigate (0 <? diff) (diff <? 0) st, mkLocals true (touchStartY loc))
    else p.

(** What can happen to the page: the four window events, the 300 ms timer
    of the current handlers firing, the two buttons, and a batch handed to
    [setArticles]. *)
Inductive event :=
| Wheel (deltaY : Z)
| KeyDown (key : string)
| TouchStart (clientY : Z)
| TouchEnd (clientY : Z)
| TimerFired
| ClickNext
| ClickPrevious
| Append (batch : list Article).

Definition handle (ev : event) (p : AppState * Locals) : AppState * Locals :=
  match ev with
  | Wheel deltaY => handleWheel deltaY p
  | KeyDown key => handleKeyDown key p
  | TouchStart y => handleTouchStart y p
  | TouchEnd y => handleTouchEnd y p
  | TimerFired => (p.1, mkLocals false (touchStartY p.2))
  | ClickNext => (goToNext p.1, p.2)
  | ClickPrevious => (goToPrevious p.1, p.2)
  | Append batch => (applyAction p.1 (SetArticles batch), p.2)
  end.

(** One event and the render after it: the scroll effect depends on
    [currentIndex] and [articles.length] (line 254) and starts again with
    fresh locals when one of them has changed. *)
Definition step (p : AppState * Locals) (ev : event) : AppState * Locals :=
  let p' := handle ev p in
  if bool_decide (currentIndex p'.1 = currentIndex p.1 ∧
                  length (articles p'.1) = length (articles p.1))
  then p'
  else (p'.1, freshLocals).

Definition run (p : AppState * Locals) (evs : list event) : AppState * Locals :=
  fold_left step evs p.

(** What a step may do to the index: nothing, one forward when there is a
    next article, one backward when there is a previous one. *)
Definition moved (st st' : AppState) : Prop :=
  currentIndex st' = currentIndex st \/
  (currentIndex st' = currentIndex st + 1 /\
   currentIndex st < Z.of_nat (length (articles st)) - 1) \/
  (currentIndex st' = currentIndex st - 1 /\ 0 < currentIndex st).

(** The invariant of the navigation state. *)
Definition indexInRange (st : AppState) : Prop :=
  0 <= currentIndex st <= Z.max 0 (Z.of_nat (length (articles st)) - 1).

(** ** Durable storage and JSON (lines 68-73 and 384-391) *)

(** The value [JSON.parse] builds, as the syntax tree of the text: a number
    keeps its literal and a string the characters between its quotes, escape
    sequences undecoded.  Neither matters for what the program asks of a
    parsed value, which is whether it exists and whether it is truthy. *)
Inductive json :=
| JNull
| JBool (b : bool)
| JNumber (literal : string)
| JString (raw : string)
| JArray (items : list json)
| JObject (members : list (string * json)).

Inductive parsed (A : Type) :=
| Parsed (a : A) (rest : string)
| Invalid
| OutOfFuel.
Arguments Parsed {A} a rest.
Arguments Invalid {A}.
Arguments OutOfFuel {A}.

Definition parsedMap {A B : Type} (f : A -> B) (p : parsed A) : parsed B :=
  match p with
  | Parsed a rest => Parsed (f a) rest
  | Invalid => Invalid
  | OutOfFuel => OutOfFuel
  end.

Definition dquote : ascii := ascii_of_nat 34.

Definition isWs (c : ascii) : bool :=
  let n := nat_of_ascii c in
  ((n =? 32) || (n =? 9) || (n =? 10) || (n =? 13))%nat.

Definition isDigit (c : ascii) : bool :=
  let n := nat_of_ascii c in ((48 <=? n) && (n <=? 57))%nat.

Definition isHex (c : ascii) : bool :=
  let n := nat_of_ascii c in
  (isDigit c || ((65 <=? n) && (n <=? 70)) || ((97 <=? n) && (n <=? 102)))%nat.

(** The characters that may follow a backslash, [u] apart. *)
Definition isSimpleEscape (c : ascii) : bool :=
  Ascii.eqb c dquote || Ascii.eqb c "\" || Ascii.eqb c "/" || Ascii.eqb c "b" ||
  Ascii.eqb c "f" || Ascii.eqb c "n" || Ascii.eqb c "r" || Ascii.eqb c "t".

Fixpoint skipWs (s : string) : string :=
  match s with
  | String c r => if isWs c then skipWs r else s
  | EmptyString => EmptyString
  end.

Fixpoint stripPrefix (p s : string) : option string :=
  match p, s with
  | EmptyString, _ => Some s
  | String a p', String b s' => if Ascii.eqb a b then stripPrefix p' s' else None
  | String _ _, EmptyString => None
  end.

Fixpoint spanDigits (s : string) : string * string :=
  match s with
  | String c r =>
      if isDigit c then let (d, rest) := spanDigits r in (String c d, rest)
      else (EmptyString, s)
  | EmptyString => (EmptyString, EmptyString)
  end.

(** The integer part: a single 0, or a digit from 1 to 9 and more digits. *)
Definition parseInt (s : string) : option (string * string) :=
  match s with
  | String c r =>
      if Ascii.eqb c "0" then Some ("0", r)
      else if isDigit c then Some (spanDigits s)
      else None
  | EmptyString => None
  end.

Definition parseFrac (s : string) : option (string * string) :=
  match s with
  | String c r =>
      if Ascii.eqb c "." then
        let (d, rest) := spanDigits r in
        if String.eqb d "" then None else Some (String c d, rest)
      else Some ("", s)
  | EmptyString => Some ("", s)
  end.

Definition parseExp (s : string) : option (string * string) :=
  match s with
  | String c r =>
      if Ascii.eqb c "e" || Ascii.eqb c "E" then
        let (sign, r1) :=
          match r with
          | String c' r' =>
              if Ascii.eqb c' "+" || Ascii.eqb c' "-" then (String c' "", r')
              else ("", r)
          | EmptyString => ("", r)
          end in
        let (d, rest) := spanDigits r1 in
        if String.eqb d "" then None else Some (String c (sign +:+ d), rest)
      else Some ("", s)
  | EmptyString => Some ("", s)
  end.

Definition parseNumber (s : string) : option (string * string) :=
  let (sign, s1) :=
    match s with
    | String c r => if Ascii.eqb c "-" then ("-", r) else ("", s)
    | EmptyString => ("", s)
    end in
  '(i, s2) ← parseInt s1;
  '(f, s3) ← parseFrac s2;
  '(e, s4) ← parseExp s3;
  Some (sign +:+ i +:+ f +:+ e, s4).

(** The rest of a string literal after its opening quote. *)
Fixpoint parseStringBody (s : string) : option (string * string) :=
  match s with
  | EmptyString => None
  | String c r =>
      if Ascii.eqb c dquote then Some ("", r)
      else if Ascii.eqb c "\" then
        match r with
        | String e r' =>
            if isSimpleEscape e then
              match parseStringBody r' with
              | Some (b, rest) => Some (String c (String e b), rest)
              | None => None
              end
            else if Ascii.eqb e "u" then
              match r' with
              | String h1 (String h2 (String h3 (String h4 r''))) =>
                  if isHex h1 && isHex h2 && isHex h3 && isHex h4 then
                    match parseStringBody r'' with
                    | Some (b, rest) =>
                        Some (String c (String e (String h1 (String h2
                               (String h3 (String h4 b))))), rest)
                    | None => None
                    end
                  else None
              | _ => None
              end
            else None
        | EmptyString => None
        end
      else if (nat_of_ascii c <? 32)%nat then None
      else
        match parseStringBody r with
        | Some (b, rest) => Some (String c b, rest)
        | None => None
        end
  end.

Definition parseLiteral (s : string) : parsed json :=
  match stripPrefix "null" s, stripPrefix "true" s, stripPrefix "false" s with
  | Some rest, _, _ => Parsed JNull rest
  | _, Some rest, _ => Parsed (JBool true) rest
  | _, _, Some rest => Parsed (JBool false) rest
  | _, _, _ =>
      match parseNumber s with
      | Some (lit, rest) => Parsed (JNumber lit) rest
      | None => Invalid
      end
  end.

(** A value; the elements of an array after its bracket, up to the closing
    one; the members of an object likewise. *)
Fixpoint parseValue (fuel : nat) (s : string) : parsed json :=
  match fuel with
  | O => OutOfFuel
  | S fuel' =>
      match skipWs s with
      | EmptyString => Invalid
      | String c r =>
          if Ascii.eqb c "[" then
            match skipWs r with
            | String c' r' =>
                if Ascii.eqb c' "]" then Parsed (JArray []) r'
                else parsedMap JArray (parseElements fuel' r)
            | EmptyString => Invalid
            end
          else if Ascii.eqb c "{" then
            match skipWs r with
            | String c' r' =>
                if Ascii.eqb c' "}" then Parsed (JObject []) r'
                else parsedMap JObject (parseMembers fuel' r)
            | EmptyString => Invalid
            end
          else if Ascii.eqb c dquote then
            match parseStringBody r with
            | Some (b, rest) => Parsed (JString b) rest
            | None => Invalid
            end
          else parseLiteral (String c r)
      end
  end
with parseElements (fuel : nat) (s : string) : parsed (list json) :=
  match fuel with
  | O => OutOfFuel
  | S fuel' =>
      match parseValue fuel' s with
      | Parsed v r =>
          match skipWs r with
          | String c r' =>
              if Ascii.eqb c "," then parsedMap (cons v) (parseElements fuel' r')
              else if Ascii.eqb c "]" then Parsed [v] r'
              else Invalid
          | EmptyString => Invalid
          end
      | Invalid => Invalid
      | OutOfFuel => OutOfFuel
      end
  end
with parseMembers (fuel : nat) (s : string) : parsed (list (string * json)) :=
  match fuel with
  | O => OutOfFuel
  | S fuel' =>
      match skipWs s with
      | String c r =>
          if Ascii.eqb c dquote then
            match parseStringBody r with
            | Some (k, r1) =>
                match skipWs r1 with
                | String c1 r2 =>
                    if Ascii.eqb c1 ":" then
                      match parseValue fuel' r2 with
                      | Parsed v r3 =>
                          match skipWs r3 with
                          | String c3 r4 =>
                              if Ascii.eqb c3 "," then
                                parsedMap (cons (k, v)) (parseMembers fuel' r4)
                              else if Ascii.eqb c3 "}" then Parsed [(k, v)] r4
                              else Invalid
                          | EmptyString => Invalid
                          end
                      | Invalid => Invalid
                      | OutOfFuel => OutOfFuel
                      end
                    else Invalid
                | EmptyString => Invalid
                end
            | None => Invalid
            end
          else Invalid
      | EmptyString => Invalid
      end
  end.

Definition parseFuel (text : string) : nat := 2 * String.length text + 2.

(** [JSON.parse(text)]; [None] is the [SyntaxError] it throws. *)
Definition JSON_parse (text : string) : option json :=
  match parseValue (parseFuel text) text with
  | Parsed v rest => if String.eqb (skipWs rest) "" then Some v else None
  | Invalid | OutOfFuel => None
  end.

(** A number literal denotes zero when its mantissa has no digit but 0. *)
Fixpoint mantissaIsZero (lit : string) : bool :=
  match lit with
  | EmptyString => true
  | String c r =>
      if Ascii.eqb c "e" || Ascii.eqb c "E" then true
      else if isDigit c && negb (Ascii.eqb c "0") then false
      else mantissaIsZero r
  end.

(** [Boolean(v)] for a parsed value. *)
Definition truthy (v : json) : bool :=
  match v with
  | JNull => false
  | JBool b => b
  | JNumber lit => negb (mantissaIsZero lit)
  | JString raw => negb (String.eqb raw "")
  | JArray _ | JObject _ => true
  end.

Inductive error := SyntaxError.

(** A computation that returns or throws. *)
Inductive outcome (A : Type) :=
| Returns (a : A)
| Throws (e : error).
Arguments Returns {A} a.
Arguments Throws {A} e.

Definition bindOutcome {A B : Type} (m : outcome A) (k : A -> outcome B)
  : outcome B :=
  match m with
  | Returns a => k a
  | Throws e => Throws e
  end.

(** [array.map(f)] for an [f] that may throw: left to right, and the first
    throw ends it. *)
Fixpoint mapOutcome {A B : Type} (f : A -> outcome B) (l : list A)
  : outcome (list B) :=
  match l with
  | [] => Returns []
  | x :: rest =>
      bindOutcome (f x) (fun y =>
      bindOutcome (mapOutcome f rest) (fun ys => Returns (y :: ys)))
  end.

Definition parseOrThrow (text : string) : outcome json :=
  match JSON_parse text with
  | Some v => Returns v
  | None => Throws SyntaxError
  end.


(** The preferences-load effect (lines 68-73): the value of the
    [userPreferences] state after it, given the value before it. *)
Definition loadPreferences (storage : gmap string string) (userPreferences : json)
  : outcome json :=
  match storage !! "scitok-preferences" with
  | Some saved =>
      if negb (String.eqb saved "")
      then bindOutcome (parseOrThrow saved) Returns
      else Returns userPreferences
  | None => Returns userPreferences
  end.

(** The callback of the [map] in [getSavedArticles] (lines 386-389). *)
Definition readSaved (storage : gmap string string) (savedId : string)
  : outcome json :=
  match storage !! ("scitok-saved-" +:+ savedId) with
  | Some saved =>
      if negb (String.eqb saved "") then parseOrThrow saved else Returns JNull
  | None => Returns JNull
  end.

Definition getSavedArticles (storage : gmap string string)
  (prefs : UserPreferences) : outcome (list json) :=
  bindOutcome (mapOutcome (readSaved storage) (savedArticles prefs))
    (fun l => Returns (filter (fun v => truthy v = true) l)).

(** What the snapshot of a saved id contributes to the list of saved
    articles: nothing when it is missing, empty or falsy. *)
Definition savedValue (storage : gmap string string) (savedId : string)
  : option json :=
  match storage !! ("scitok-saved-" +:+ savedId) with
  | Some saved =>
      if String.eqb saved "" then None
      else match JSON_parse saved with
           | Some v => if truthy v then Some v else None
           | None => None
           end
  | None => None
  end.

(** A parser that has not run out of fuel and leaves less than the text
    [s]. *)
Definition inFuel {A : Type} (p : parsed A) (s : string) : Prop :=
  p ≠ OutOfFuel /\
  forall a r, p = Parsed a r -> (String.length r < String.length s)%nat.

(** ** Example data *)

Definition longAbstract : string :=
  "We study the long-run behaviour of a feed of scientific papers and show that every batch it loads is eventually read by someone.".

Definition shortAbstract : string := "A short note on feeds.".

Definition paperOf (pid abs : string) : Paper :=
  mkPaper (Some pid) (Some "On feeds") None (Some abs) None None.

Definition articleOf (pid : string) : Article :=
  mkArticle pid "On feeds" [] longAbstract "#" 2024 semantic.

(** An oracle that draws the term at index 2, which is [ai] in the default
    vocabulary, and the offset 7. *)
Definition drawAi7 (r : Response) : Oracle :=
  mkOracle 2 7 r (fun i => "synthetic-" +:+ pretty i) 2024.

(** A state whose cache has an entry for a key that is not marked used. *)
Definition snapCached : AppState :=
  mkState [] 0 false initialPreferences {[ "ai-7" := [articleOf "p1"] ]} ∅.

(** A state in which the key [ai-7] is used. *)
Definition snapUsed : AppState :=
  mkState [articleOf "p1"] 0 false initialPreferences
    {[ "ai-7" := [articleOf "p1"] ]} {[ "ai-7" ]}.

(** A state with six articles. *)
Definition sixArticles : list Article :=
  [articleOf "p1"; articleOf "p2"; articleOf "p3"; articleOf "p4";
   articleOf "p5"; articleOf "p6"].

Definition pageAt (index : Z) (isLoading : bool) : AppState :=
  mkState sixArticles index isLoading initialPreferences ∅ ∅.

(** An answer of the provider with the same paper twice. *)
Definition repeatedPaper : Response :=
  Json (Some [paperOf "p1" longAbstract; paperOf "p1" longAbstract]).

(** An answer of five papers, two of them with a short abstract. *)
Definition fivePapers : list Paper :=
  [paperOf "p1" longAbstract; paperOf "p2" shortAbstract;
   paperOf "p3" longAbstract; paperOf "p4" shortAbstract;
   paperOf "p5" longAbstract].

(** Durable storage with a preferences record that is not JSON, and with
    one saved snapshot missing, one that is an empty object and one that is
    not JSON. *)
Definition brokenPreferences : gmap string string :=
  {[ "scitok-preferences" := "{oops" ]}.

Definition oneSnapshot : gmap string string :=
  {[ "scitok-saved-p2" := "{}" ]}.


(** ** Further operations: what a fetch can do *)

(** The actions of a fetch that change nothing of the component state. *)
Definition quiet (a : action) : Prop :=
  match a with
  | FetchUrl _ _ | ConsoleError _ => True
  | _ => False
  end.

(** The number of queries to the provider among some actions. *)
Definition isQuery (a : action) : bool :=
  match a with
  | FetchUrl _ _ => true
  | _ => false
  end.

Definition queries (l : list action) : nat :=
  length (filter (fun a => isQuery a = true) l).

(** The batch that the answer of an oracle yields: the articles kept from
    its papers, and nothing when the query fails or has no [data]. *)
Definition batchOf (o : Oracle) : list Article :=
  match response o with
  | Json (Some papers) => fetchedArticles o papers
  | Json None | NetworkError => []
  end.

(** The three things a fetch that passes its guard can do to the state:
    nothing; append a batch it found in the cache; store the batch of the
    n-th attempt under its key, mark the key used and append the batch. *)
Inductive fetchOutcome (st : AppState) (env : nat -> Oracle) : AppState -> Prop :=
| FetchNothing :
    fetchOutcome st env st
| FetchCached (k : string) (cached : list Article) :
    k ∉ usedCacheKeys st ->
    cache st !! k = Some cached ->
    fetchOutcome st env
      (mkState (appendUnique (articles st) cached) (currentIndex st) false
         (userPreferences st) (cache st) (usedCacheKeys st))
| FetchStored (n : nat) :
    (n < maxAttempts)%nat ->
    drawKey (getRecommendedTerms (userPreferences st)) (env n) ∉ usedCacheKeys st ->
    cache st !! drawKey (getRecommendedTerms (userPreferences st)) (env n) = None ->
    batchOf (env n) ≠ [] ->
    fetchOutcome st env
      (mkState (appendUnique (articles st) (batchOf (env n))) (currentIndex st)
         false (userPreferences st)
         (<[drawKey (getRecommendedTerms (userPreferences st)) (env n) :=
              batchOf (env n)]> (cache st))
         (usedCacheKeys st ∪
            {[drawKey (getRecommendedTerms (userPreferences st)) (env n)]})).

(** What the loop has done so far, in the terms of [fetchOutcome]. *)
Definition loopProgress (snap : AppState) (env : nat -> Oracle) (ls : LoopState)
  : Prop :=
  (newArticles ls = [] /\ Forall quiet (log ls)) \/
  (exists k, (k ∉ usedCacheKeys snap) /\ cache snap !! k = Some (newArticles ls) /\
             Forall quiet (log ls)) \/
  (exists n pre,
     let k := drawKey (getRecommendedTerms (userPreferences snap)) (env n) in
     (n < maxAttempts)%nat /\ (k ∉ usedCacheKeys snap) /\
     cache snap !! k = None /\
     batchOf (env n) ≠ [] /\ newArticles ls = batchOf (env n) /\
     Forall quiet pre /\
     log ls = pre ++ [SetCache k (batchOf (env n)); SetUsedCacheKeys k;
                      LocalStorageSetItem ("scitok-" +:+ k) (batchOf (env n))]).

(** An article as the filter and the map of the fetch leave it. *)
Definition qualified (a : Article) : Prop :=
  title a ≠ "" /\ (100 < String.length (abstract a))%nat /\
  url a ≠ "" /\ source a = semantic.

(** A state whose buffer and cache hold qualified articles only, and whose
    cache has no empty batch. *)
Definition feedQualified (st : AppState) : Prop :=
  Forall qualified (articles st) /\
  map_Forall (fun _ batch => batch ≠ [] /\ Forall qualified batch) (cache st).

(** Oracles for three attempts that all fail: a network error, an answer
    without data, an answer whose only paper has a short abstract. *)
Definition failingEnv (n : nat) : Oracle :=
  match n with
  | O => mkOracle 0 1 NetworkError (fun _ => "synthetic") 2024
  | S O => mkOracle 1 2 (Json None) (fun _ => "synthetic") 2024
  | _ => mkOracle 2 3 (Json (Some [paperOf "p9" shortAbstract]))
           (fun _ => "synthetic") 2024
  end.

(** An oracle whose answer is the five papers of [fivePapers]. *)
Definition fiveEnv (n : nat) : Oracle := drawAi7 (Json (Some fivePapers)).

(** ** Further operations: likes in sequence, and the render's own tests *)

(** Preferences as likes leave them: no id liked twice, no topic listed
    twice, every topic a vocabulary term with a score of at least 1. *)
Definition likesWellFormed (prefs : UserPreferences) : Prop :=
  NoDup (likedArticles prefs) /\
  NoDup (map fst (likedTopics prefs)) /\
  forall e, e ∈ likedTopics prefs -> e.1 ∈ SEARCH_TERMS /\ 1 <= e.2.

(** The [disabled] attributes of the two buttons (lines 581 and 589). *)
Definition previousDisabled (st : AppState) : bool :=
  currentIndex st =? 0.

Definition nextDisabled (st : AppState) : bool :=
  Z.of_nat (length (articles st)) - 1 <=? currentIndex st.

(** The events of the window that the scroll effect listens to. *)
Definition windowEvent (ev : event) : Prop :=
  match ev with
  | Wheel _ | KeyDown _ | TouchStart _ | TouchEnd _ => True
  | TimerFired | ClickNext | ClickPrevious | Append _ => False
  end.

(** A string of decimal digits. *)
Fixpoint allDigits (s : string) : bool :=
  match s with
  | EmptyString => true
  | String c rest => isDigit c && allDigits rest
  end.

(** ** Further operations: JSON.stringify and the writes to storage *)

(** The text of a syntax tree, as [JSON.stringify] lays it out: no white
    space, members and elements separated by commas. *)
Fixpoint joinWith (sep : string) (parts : list string) : string :=
  match parts with
  | [] => ""
  | [x] => x
  | x :: rest => x +:+ sep +:+ joinWith sep rest
  end.

Definition quoted (raw : string) : string :=
  String dquote (raw +:+ String dquote "").

Fixpoint JSON_print (v : json) : string :=
  match v with
  | JNull => "null"
  | JBool true => "true"
  | JBool false => "false"
  | JNumber literal => literal
  | JString raw => quoted raw
  | JArray items => "[" +:+ joinWith "," (map JSON_print items) +:+ "]"
  | JObject members =>
      "{" +:+
      joinWith "," (map (fun kv => quoted kv.1 +:+ ":" +:+ JSON_print kv.2) members)
      +:+ "}"
  end.

(** The escape of one character inside a string literal: the quote and
    the backslash, the five control characters with a short escape, the
    other characters below the space as [\u00XX] in lowercase. *)
Definition hexChar (n : nat) : ascii :=
  default "0"%char (list_ascii_of_string "0123456789abcdef" !! n).

Definition escapeChar (c : ascii) : string :=
  let n := nat_of_ascii c in
  if Ascii.eqb c dquote then String "\" (String dquote "")
  else if Ascii.eqb c "\" then "\\"
  else if (n =? 8)%nat then "\b"
  else if (n =? 12)%nat then "\f"
  else if (n =? 10)%nat then "\n"
  else if (n =? 13)%nat then "\r"
  else if (n =? 9)%nat then "\t"
  else if (n <? 32)%nat then
    "\u00" +:+ String (hexChar (n / 16)) (String (hexChar (n mod 16)) "")
  else String c "".

Fixpoint escapeString (s : string) : string :=
  match s with
  | EmptyString => EmptyString
  | String c rest => escapeChar c +:+ escapeString rest
  end.

(** The values of the program's data, as [JSON.stringify] sees them: the
    fields in the order of the object literals that build them (lines
    57-61, 128-136), an author with the one field of its interface, and
    the topics in the order of the association list. *)
Definition stringValue (s : string) : json := JString (escapeString s).

Definition numberValue (n : Z) : json := JNumber (pretty n).

Definition authorValue (a : Author) : json :=
  JObject [("name", stringValue (name a))].

Definition sourceValue (s : Source) : json :=
  match s with
  | semantic => JString "semantic"
  | arxiv => JString "arxiv"
  end.

Definition articleValue (a : Article) : json :=
  JObject [("id", stringValue (id a));
           ("title", stringValue (title a));
           ("authors", JArray (map authorValue (authors a)));
           ("abstract", stringValue (abstract a));
           ("url", stringValue (url a));
           ("year", numberValue (year a));
           ("source", sourceValue (source a))].

Definition preferencesValue (prefs : UserPreferences) : json :=
  JObject [("likedArticles", JArray (map stringValue (likedArticles prefs)));
           ("savedArticles", JArray (map stringValue (savedArticles prefs)));
           ("likedTopics",
            JObject (map (fun e => (escapeString e.1, numberValue e.2))
                       (likedTopics prefs)))].

(** [savePreferences] (lines 76-79): the new value of the state is its
    argument; this is its write to storage. *)
Definition savePreferences (newPreferences : UserPreferences)
  (storage : gmap string string) : gmap string string :=
  <["scitok-preferences" := JSON_print (preferencesValue newPreferences)]> storage.

(** [handleSave] (lines 311-339): the preferences it hands to
    [savePreferences], and storage after its writes. *)
Definition handleSave (prefs : UserPreferences) (storage : gmap string string)
  (article : Article) : UserPreferences * gmap string string :=
  let isSaved := bool_decide (id article ∈ savedArticles prefs) in
  let newSavedArticles :=
    if isSaved then filter (fun i => i ≠ id article) (savedArticles prefs)
    else savedArticles prefs ++ [id article] in
  let newPreferences :=
    {| likedArticles := likedArticles prefs;
       savedArticles := newSavedArticles;
       likedTopics := likedTopics prefs |} in
  let storage1 := savePreferences newPreferences storage in
  (newPreferences,
   if negb isSaved
   then <["scitok-saved-" +:+ id article := JSON_print (articleValue article)]> storage1
   else delete ("scitok-saved-" +:+ id article) storage1).

(** A like with its write to storage: [handleLike] ends in
    [savePreferences] (line 301). *)
Definition likeAndSave (prefs : UserPreferences) (storage : gmap string string)
  (article : Article) : UserPreferences * gmap string string :=
  (handleLike prefs article, savePreferences (handleLike prefs article) storage).

(** The two dark-mode effects (lines 257-271): the value of [darkMode]
    after the load, and the write of the save. *)
Definition loadDarkMode (storage : gmap string string) (darkMode : json)
  : outcome json :=
  match storage !! "scitok-dark-mode" with
  | Some savedMode =>
      if negb (String.eqb savedMode "") then parseOrThrow savedMode
      else Returns darkMode
  | None => Returns darkMode
  end.

Definition saveDarkMode (darkMode : bool) (storage : gmap string string)
  : gmap string string :=
  <["scitok-dark-mode" := JSON_print (JBool darkMode)]> storage.

(** A tree that the values above are made of: numbers printed from an
    integer, strings and keys escaped from a string. *)
Inductive encoded : json -> Prop :=
| EncNull : encoded JNull
| EncBool b : encoded (JBool b)
| EncNumber n : encoded (JNumber (pretty (n : Z)))
| EncString s : encoded (JString (escapeString s))
| EncArray items : Forall encoded items -> encoded (JArray items)
| EncObject members :
    Forall (fun kv => (exists k, kv.1 = escapeString k) /\ encoded kv.2) members ->
    encoded (JObject members).

(** The nesting depth of a tree. *)
Fixpoint depth (v : json) : nat :=
  match v with
  | JArray items => S (foldr (fun x => Nat.max (depth x)) 0%nat items)
  | JObject members => S (foldr (fun kv => Nat.max (depth kv.2)) 0%nat members)
  | _ => 0%nat
  end.

(** What may follow a value in a text: nothing, or a comma or a closing
    bracket or brace. *)
Definition delimited (rest : string) : Prop :=
  match rest with
  | EmptyString => True
  | String c _ => c = ","%char \/ c = "]"%char \/ c = "}"%char
  end.

(** Every saved id has a stored snapshot that parses to a value the list
    of saved articles keeps. *)
Definition snapshotsStored (prefs : UserPreferences) (storage : gmap string string)
  : Prop :=
  forall savedId, savedId ∈ savedArticles prefs ->
    exists text v, storage !! ("scitok-saved-" +:+ savedId) = Some text /\
                   text ≠ "" /\ JSON_parse text = Some v /\ truthy v = true.

(** The first character of a printed value: never white space, a comma or
    a closing bracket or brace. *)
Definition opening (c : ascii) : Prop :=
  isWs c = false /\ c ≠ "]"%char /\ c ≠ "}"%char /\ c ≠ ","%char.


(** The two actions of the user on an article that write to storage. *)
Inductive userAction :=
| Like (article : Article)
| Save (article : Article).

Definition perform (ps : UserPreferences * gmap string string) (a : userAction)
  : UserPreferences * gmap string string :=
  match a with
  | Like article => likeAndSave ps.1 ps.2 article
  | Save article => handleSave ps.1 ps.2 article
  end.

(** The citation that [handleShare] copies (lines 343-352), and the test
    under which a card shows the link to the article (lines 543 and 663). *)
Definition citationAuthors (l : list Author) : string :=
  match l with
  | [] => "Unknown Author"
  | [a] => name a
  | [a; b] => name a +:+ " & " +:+ name b
  | a :: _ => name a +:+ " et al."
  end.

Definition citation (article : Article) : string :=
  citationAuthors (authors article) +:+ " (" +:+ pretty (year article) +:+ "). " +:+
  title article +:+ ". Retrieved from " +:+
  (if negb (String.eqb (url article) "#") then url article else "Semantic Scholar").

Definition showsLink (article : Article) : bool :=
  negb (String.eqb (url article) "") && negb (String.eqb (url article) "#").


(** ** The text of a like, as the specification words it *)

(** The specification extracts the topics from the title and the abstract
    put together, [title+abstract]; [likeText] above is what line 287
    builds, with a space between the two. *)
Definition likeTextAsClaimed (article : Article) : string :=
  toLowerCase (title article +:+ abstract article).

(** An article whose title ends in [a] and whose abstract starts with
    [I]. *)
Definition africaArticle : Article :=
  mkArticle "p7" "Advances in Africa"
    [] "In this paper we study how rivers shape the land over long periods." "#" 2024
    semantic.

(** ** Fetches that overlap *)

(** A call of [fetchArticles] reads [loading], [cache] and [usedCacheKeys]
    of the render that created it (the dependencies of line 164), while its
    setter calls are updaters on the state React holds when they run.  The
    state after a call created by the render of [snap] has run to its end
    from the state [st]: *)
Definition fetchFrom (snap st : AppState) (env : nat -> Oracle) : AppState :=
  applyActions st (fetchArticles snap env).

(** The state while a first call is waiting for the provider: it has
    called [setLoading(true)] (line 95) and nothing else yet. *)
Definition inFlight (st : AppState) : AppState :=
  applyAction st (SetLoading true).

(** A paper that the provider lists under the same query some time later. *)
Definition laterPaper : Paper :=
  mkPaper (Some "q1") (Some "On feeds, again") None (Some longAbstract) None None.

(** Oracles of a call whose first attempt fails on another key and whose
    second attempt draws [ai] and 7. *)
Definition retryEnv (r : Response) (n : nat) : Oracle :=
  match n with
  | O => mkOracle 0 1 NetworkError (fun _ => "synthetic") 2024
  | _ => drawAi7 r
  end.

(** ** The page between two renders *)

(** The handlers of the scroll effect and the two buttons belong to a
    render: their guards read [currentIndex] and [articles] of that render,
    while their updaters [prev => prev + 1] and [prev => prev - 1] are
    applied to the state React holds.  [committed] is that state,
    [rendered] the state of the last render, [effectLocals] the variables
    of the scroll effect of that render. *)
Record Page := mkPage {
  committed : AppState;
  rendered : AppState;
  effectLocals : Locals
}.

Definition navigateOn (down up : bool) (pg : Page) : AppState :=
  if down && (currentIndex (rendered pg) <?
              Z.of_nat (length (articles (rendered pg))) - 1)
  then setCurrentIndex (fun prev => prev + 1) (committed pg)
  else if up && (0 <? currentIndex (rendered pg))
  then setCurrentIndex (fun prev => prev - 1) (committed pg)
  else committed pg.

(** One event, handled by the handlers of the last render. *)
Definition dispatch (ev : event) (pg : Page) : Page :=
  let loc := effectLocals pg in
  match ev with
  | Wheel deltaY =>
      if isProcessing loc then pg
      else mkPage (navigateOn (0 <? deltaY) (deltaY <? 0) pg) (rendered pg)
             (mkLocals true (touchStartY loc))
  | KeyDown key =>
      if isProcessing loc then pg
      else mkPage (navigateOn (String.eqb key "ArrowDown") (String.eqb key "ArrowUp") pg)
             (rendered pg) (mkLocals true (touchStartY loc))
  | TouchStart clientY =>
      mkPage (committed pg) (rendered pg) (mkLocals (isProcessing loc) clientY)
  | TouchEnd clientY =>
      if isProcessing loc then pg
      else
        let touchEndY := clientY in
        let diff := touchStartY loc - touchEndY in
        if 50 <? Z.abs diff
        then mkPage (navigateOn (0 <? diff) (diff <? 0) pg) (rendered pg)
               (mkLocals true (touchStartY loc))
        else pg
  | TimerFired =>
      mkPage (committed pg) (rendered pg) (mkLocals false (touchStartY loc))
  | ClickNext => mkPage (navigateOn true false pg) (rendered pg) loc
  | ClickPrevious => mkPage (navigateOn false true pg) (rendered pg) loc
  | Append batch =>
      mkPage (applyAction (committed pg) (SetArticles batch)) (rendered pg) loc
  end.

(** A render: the handlers now read the state React holds, and the scroll
    effect starts again with fresh locals when [currentIndex] or
    [articles.length] has changed since the last render (line 254). *)
Definition render (pg : Page) : Page :=
  mkPage (committed pg) (committed pg)
    (if bool_decide (currentIndex (committed pg) = currentIndex (rendered pg) ∧
                     length (articles (committed pg)) = length (articles (rendered pg)))
     then effectLocals pg
     else freshLocals).

Inductive pageEvent :=
| Dispatch (ev : event)
| Render.

Definition pageStep (pg : Page) (e : pageEvent) : Page :=
  match e with
  | Dispatch ev => dispatch ev pg
  | Render => render pg
  end.

Definition pageRun (pg : Page) (es : list pageEvent) : Page :=
  fold_left pageStep es pg.

(** The schedule of [run]: a render after every event. *)
Definition renderedAfterEach (evs : list event) : list pageEvent :=
  flat_map (fun ev => [Dispatch ev; Render]) evs.

(** The direction that an input asks for: forward for a wheel turned down,
    the key [ArrowDown], a swipe up of more than 50 pixels and the next
    button; backward for their opposites. *)
Inductive direction := Forward | Backward | Still.

Definition directionOf (loc : Locals) (ev : event) : direction :=
  match ev with
  | Wheel deltaY =>
      if 0 <? deltaY then Forward else if deltaY <? 0 then Backward else Still
  | KeyDown key =>
      if String.eqb key "ArrowDown" then Forward
      else if String.eqb key "ArrowUp" then Backward
      else Still
  | TouchEnd clientY =>
      let diff := touchStartY loc - clientY in
      if 50 <? Z.abs diff then (if 0 <? diff then Forward else Backward) else Still
  | ClickNext => Forward
  | ClickPrevious => Backward
  | TouchStart _ | TimerFired | Append _ => Still
  end.

(** An input that its handler drops at the [isProcessing] test. *)
Definition blocked (loc : Locals) (ev : event) : bool :=
  match ev with
  | Wheel _ | KeyDown _ | TouchEnd _ => isProcessing loc
  | TouchStart _ | TimerFired | ClickNext | ClickPrevious | Append _ => false
  end.

(** The condition on a schedule: an input whose guard is evaluated finds in
    it the index React holds, which is so when React has rendered the last
    move before the input comes. *)
Definition guardReadsCurrent (pg : Page) (e : pageEvent) : bool :=
  match e with
  | Render => true
  | Dispatch ev =>
      match directionOf (effectLocals pg) ev with
      | Still => true
      | Forward | Backward =>
          blocked (effectLocals pg) ev ||
          (currentIndex (rendered pg) =? currentIndex (committed pg))
      end
  end.

Fixpoint guardsReadCurrent (pg : Page) (es : list pageEvent) : bool :=
  match es with
  | [] => true
  | e :: es' => guardReadsCurrent pg e && guardsReadCurrent (pageStep pg e) es'
  end.

(** A page that has just been rendered. *)
Definition renderedPage (st : AppState) (loc : Locals) : Page := mkPage st st loc.


(** The events of a schedule that are renders or events of the window. *)
Definition windowOrRender (e : pageEvent) : Prop :=
  match e with
  | Render => True
  | Dispatch ev => windowEvent ev
  end.



(** * Properties *)

(** ** Term ranking *)

Section Ranking.

Implicit Types (e : string * Z) (l : list (string * Z)).

Lemma insertDesc_perm e l : Permutation (insertDesc e l) (e :: l).
Proof.
  induction l as [|y l IH]; simpl; [done|].
  destruct (e.2 <? y.2); [|done].
  rewrite IH. apply perm_swap.
Qed.

Lemma sortDesc_perm l : Permutation (sortDesc l) l.
Proof.
  induction l as [|e l IH]; simpl; [done|].
  rewrite insertDesc_perm. by constructor.
Qed.

Lemma insertDesc_descending e l :
  descending l -> descending (insertDesc e l).
Proof.
  unfold descending. induction 1 as [|y l Hl IH Hy]; simpl.
  - repeat constructor.
  - destruct (Z.ltb_spec (e.2) (y.2)) as [Hlt|Hge].
    + constructor; [done|].
      apply Forall_forall. intros x Hx.
      rewrite insertDesc_perm in Hx.
      apply elem_of_cons in Hx as [->|Hx]; [lia|].
      rewrite Forall_forall in Hy. by apply Hy.
    + constructor; [by constructor|].
      constructor; [done|].
      eapply Forall_impl; [exact Hy|]. simpl. intros; lia.
Qed.

Lemma sortDesc_descending l : descending (sortDesc l).
Proof.
  induction l as [|e l IH]; simpl; [constructor|].
  by apply insertDesc_descending.
Qed.

Lemma sortDesc_length l : length (sortDesc l) = length l.
Proof. apply Permutation_length, sortDesc_perm. Qed.

(** In a descending list every entry of a prefix scores at least as much
    as every entry after it. *)
Lemma descending_take_drop n l e e' :
  descending l -> e ∈ take n l -> e' ∈ drop n l -> e'.2 <= e.2.
Proof.
  intros Hl. rewrite <- (take_drop n l) in Hl.
  unfold descending in Hl. revert Hl.
  generalize (take n l) (drop n l). intros front back.
  induction front as [|x front IH]; simpl; intros Hs He He'.
  - by apply elem_of_nil in He.
  - apply StronglySorted_inv in Hs as [Hs Hx].
    apply elem_of_cons in He as [->|He]; [|by apply IH].
    rewrite Forall_forall in Hx. apply Hx.
    apply elem_of_app. by right.
Qed.

End Ranking.

(** C9.  With no liked topic the recommended terms are the default
    vocabulary, fifteen terms in their fixed order.  When some topic has a
    positive score they are the five best-scored topics (all of them when
    there are fewer), in descending order of score, followed by the whole
    default vocabulary, repetitions kept; the scores [ai: 3, biology: 1]
    give [ai], [biology] and then the vocabulary. *)
Theorem getRecommendedTerms_ranked (prefs : UserPreferences) :
  length SEARCH_TERMS = 15%nat /\
  (likedTopics prefs = [] -> getRecommendedTerms prefs = SEARCH_TERMS) /\
  ((exists topic s, (topic, s) ∈ likedTopics prefs /\ 0 < s) ->
   let ranked := sortDesc (likedTopics prefs) in
   getRecommendedTerms prefs = map fst (take 5 ranked) ++ SEARCH_TERMS /\
   Permutation ranked (likedTopics prefs) /\
   descending ranked /\
   length (take 5 ranked) = Nat.min 5 (length (likedTopics prefs)) /\
   (forall e e', e ∈ take 5 ranked -> e' ∈ drop 5 ranked -> e'.2 <= e.2)) /\
  getRecommendedTerms (mkPrefs [] [] [("ai", 3); ("biology", 1)]) =
    "ai" :: "biology" :: SEARCH_TERMS.
Proof.
  split; [reflexivity|]. split; [|split; [|reflexivity]].
  - intros Hnil. unfold getRecommendedTerms. by rewrite Hnil.
  - intros (topic & s & Hin & _) ranked.
    assert (Hlen : length (take 5 ranked) = Nat.min 5 (length (likedTopics prefs))).
    { subst ranked. by rewrite length_take, sortDesc_length. }
    split; [|split; [apply sortDesc_perm|split; [apply sortDesc_descending|split; [done|]]]].
    + unfold getRecommendedTerms. fold ranked.
      rewrite length_map, Hlen.
      destruct (likedTopics prefs) as [|x l]; [by apply elem_of_nil in Hin|].
      reflexivity.
    + intros e e'. apply descending_take_drop, sortDesc_descending.
Qed.

Lemma getRecommendedTerms_ranked_witness :
  getRecommendedTerms (mkPrefs [] [] [("data", 1); ("ai", 3); ("biology", 1)]) =
    ["ai"; "data"; "biology"] ++ SEARCH_TERMS /\
  getRecommendedTerms initialPreferences = SEARCH_TERMS.
Proof.
  split.
  - destruct (getRecommendedTerms_ranked
                (mkPrefs [] [] [("data", 1); ("ai", 3); ("biology", 1)]))
      as (_ & _ & H & _).
    destruct H as (Heq & _).
    + exists "ai", 3. split; [|lia]. vm_compute. 
      apply list_elem_of_In. simpl. auto.
    + exact Heq.
  - destruct (getRecommendedTerms_ranked initialPreferences) as (_ & H & _).
    apply H. reflexivity.
Defined.

(** ** Likes *)

Section Likes.

Implicit Types (topics : list (string * Z)) (term : string).

Lemma getScore_setScore_eq topics term v :
  getScore (setScore topics term v) term = Some v.
Proof.
  induction topics as [|e rest IH]; simpl.
  - by rewrite decide_True.
  - destruct (decide (e.1 = term)) as [He|He]; simpl.
    + by rewrite decide_True.
    + by rewrite decide_False.
Qed.

Lemma getScore_setScore_ne topics term term' v :
  term ≠ term' ->
  getScore (setScore topics term v) term' = getScore topics term'.
Proof.
  intros Hne. induction topics as [|e rest IH]; simpl.
  - by rewrite decide_False.
  - destruct (decide (e.1 = term)) as [He|He]; simpl.
    + rewrite !decide_False; [done|congruence|done].
    + by rewrite IH.
Qed.

Lemma orZero_score topics term : orZero (getScore topics term) = score topics term.
Proof.
  unfold score, orZero. destruct (getScore topics term) as [v|]; simpl; [|done].
  destruct (Z.eqb_spec v 0); congruence.
Qed.

Lemma score_likeTerm text topics term term' :
  score (likeTerm text topics term) term' =
  score topics term' +
  (if bool_decide (term' = term) && includes text (toLowerCase term')
   then 1 else 0).
Proof.
  unfold likeTerm. case_bool_decide as Heq.
  - subst term'. simpl. destruct (includes text (toLowerCase term)).
    + rewrite orZero_score. unfold score at 1.
      by rewrite getScore_setScore_eq.
    + lia.
  - simpl. destruct (includes text (toLowerCase term)); [|lia].
    unfold score. rewrite getScore_setScore_ne; [lia|congruence].
Qed.

(** The [forEach] over a vocabulary without repetitions adds one to the
    score of each of its terms that the text contains, and nothing else. *)
Lemma score_fold_likeTerm text vocabulary topics term :
  NoDup vocabulary ->
  score (fold_left (likeTerm text) vocabulary topics) term =
  score topics term +
  (if bool_decide (term ∈ vocabulary) && includes text (toLowerCase term)
   then 1 else 0).
Proof.
  intros Hnd. revert topics.
  induction Hnd as [|t vocabulary Hnotin Hnd IH]; intros topics; simpl.
  - lia.
  - rewrite IH, score_likeTerm.
    destruct (decide (term = t)) as [->|Hne].
    + rewrite (bool_decide_eq_false_2 _ Hnotin).
      rewrite (bool_decide_eq_true_2 (t = t) eq_refl).
      rewrite (bool_decide_eq_true_2 (t ∈ t :: vocabulary))
        by apply list_elem_of_here.
      simpl. lia.
    + rewrite (bool_decide_eq_false_2 _ Hne). simpl.
      rewrite (bool_decide_ext (term ∈ t :: vocabulary) (term ∈ vocabulary)).
      * lia.
      * rewrite elem_of_cons. tauto.
Qed.

Lemma SEARCH_TERMS_NoDup : NoDup SEARCH_TERMS.
Proof. apply (bool_decide_unpack _). by vm_compute. Qed.

End Likes.

(** C6.  Toggling the like of an article twice restores the membership of
    every id in [likedArticles], and one toggle flips the membership of the
    article's own id.  Scores never decrease: an unlike leaves
    [likedTopics] as it was, and a like adds exactly one to the score of
    every vocabulary term that occurs, case ignored, in the title, a space
    and the abstract of the article, and nothing to any other score. *)
Theorem handleLike_toggle (prefs : UserPreferences) (article : Article) :
  (forall x, x ∈ likedArticles (handleLike (handleLike prefs article) article)
             <-> x ∈ likedArticles prefs) /\
  (id article ∈ likedArticles (handleLike prefs article)
   <-> id article ∉ likedArticles prefs) /\
  (id article ∈ likedArticles prefs ->
   likedTopics (handleLike prefs article) = likedTopics prefs) /\
  (id article ∉ likedArticles prefs ->
   forall term,
     score (likedTopics (handleLike prefs article)) term =
     score (likedTopics prefs) term +
     (if bool_decide (term ∈ SEARCH_TERMS) &&
         includes (toLowerCase (title article +:+ " " +:+ abstract article))
                  (toLowerCase term)
      then 1 else 0)) /\
  (forall term,
     score (likedTopics prefs) term <=
     score (likedTopics (handleLike prefs article)) term).
Proof.
  assert (Hlike : id article ∉ likedArticles prefs ->
    forall term,
     score (likedTopics (handleLike prefs article)) term =
     score (likedTopics prefs) term +
     (if bool_decide (term ∈ SEARCH_TERMS) &&
         includes (toLowerCase (title article +:+ " " +:+ abstract article))
                  (toLowerCase term)
      then 1 else 0)).
  { intros Hnot term. unfold handleLike.
    rewrite (bool_decide_eq_false_2 _ Hnot). cbn [likedTopics negb].
    apply score_fold_likeTerm, SEARCH_TERMS_NoDup. }
  assert (Hunlike : id article ∈ likedArticles prefs ->
    likedTopics (handleLike prefs article) = likedTopics prefs).
  { intros Hin. unfold handleLike. by rewrite (bool_decide_eq_true_2 _ Hin). }
  split; [|split; [|split; [done|split; [done|]]]].
  - intros x. unfold handleLike at 2.
    destruct (decide (id article ∈ likedArticles prefs)) as [Hin|Hnot].
    + rewrite (bool_decide_eq_true_2 _ Hin). unfold handleLike. simpl.
      rewrite bool_decide_eq_false_2.
      2:{ rewrite list_elem_of_filter. tauto. }
      simpl. rewrite elem_of_app, list_elem_of_filter, list_elem_of_singleton.
      destruct (decide (x = id article)) as [->|Hx]; tauto.
    + rewrite (bool_decide_eq_false_2 _ Hnot). unfold handleLike. simpl.
      rewrite bool_decide_eq_true_2
        by (apply elem_of_app; right; apply list_elem_of_here).
      simpl. rewrite list_elem_of_filter, elem_of_app, list_elem_of_singleton.
      split; [intros [Hx [?|?]]; [done|contradiction] | intros Hx].
      split; [congruence|by left].
  - unfold handleLike.
    destruct (decide (id article ∈ likedArticles prefs)) as [Hin|Hnot].
    + rewrite (bool_decide_eq_true_2 _ Hin). simpl.
      rewrite list_elem_of_filter. tauto.
    + rewrite (bool_decide_eq_false_2 _ Hnot). simpl.
      rewrite elem_of_app, list_elem_of_singleton. tauto.
  - intros term.
    destruct (decide (id article ∈ likedArticles prefs)) as [Hin|Hnot].
    + rewrite (Hunlike Hin). lia.
    + rewrite (Hlike Hnot).
      destruct (_ && _); lia.
Qed.

Lemma handleLike_toggle_witness :
  let article := mkArticle "p1" "AI for Data" [] "big DATA science" "#" 2020 semantic in
  score (likedTopics (handleLike initialPreferences article)) "ai" = 1 /\
  likedTopics (handleLike (mkPrefs ["p1"] [] [("ai", 1)]) article) = [("ai", 1)].
Proof.
  intros article. split.
  - destruct (handleLike_toggle initialPreferences article) as (_ & _ & _ & H & _).
    rewrite H; [by vm_compute | apply not_elem_of_nil].
  - destruct (handleLike_toggle (mkPrefs ["p1"] [] [("ai", 1)]) article)
      as (_ & _ & H & _).
    apply H. apply list_elem_of_here.
Defined.

(** C6, as the specification states it, fails.  The text of line 287 has a
    space between the title and the abstract: [ai] occurs in the title and
    the abstract of [africaArticle] put together, across their border, and
    liking the article leaves the score of [ai] at 0. *)
Lemma like_text_has_a_space :
  "ai" ∈ SEARCH_TERMS /\
  includes (likeTextAsClaimed africaArticle) (toLowerCase "ai") = true /\
  includes (likeText africaArticle) (toLowerCase "ai") = false /\
  (id africaArticle ∉ likedArticles initialPreferences) /\
  score (likedTopics initialPreferences) "ai" = 0 /\
  score (likedTopics (handleLike initialPreferences africaArticle)) "ai" = 0.
Proof.
  split; [apply list_elem_of_In; vm_compute; tauto|].
  split; [by vm_compute|]. split; [by vm_compute|].
  split; [apply not_elem_of_nil|]. split; by vm_compute.
Qed.

(** ** Fetch and cache manager *)

Section Fetch.

Implicit Types (snap st : AppState) (o : Oracle) (ls : LoopState)
  (env : nat -> Oracle) (k : string).

Lemma loopBody_used snap terms o ls :
  drawKey terms o ∈ usedCacheKeys snap ->
  loopBody snap terms o ls =
    (mkLoop (S (attempts ls)) (newArticles ls) (log ls), false).
Proof.
  intros Hin. unfold loopBody. fold (drawKey terms o).
  by rewrite (bool_decide_eq_true_2 _ Hin).
Qed.

Lemma loopBody_cached snap terms o ls cached :
  drawKey terms o ∉ usedCacheKeys snap ->
  cache snap !! drawKey terms o = Some cached ->
  loopBody snap terms o ls = (mkLoop (attempts ls) cached (log ls), true).
Proof.
  intros Hnot Hhit. unfold loopBody. fold (drawKey terms o).
  by rewrite (bool_decide_eq_false_2 _ Hnot), Hhit.
Qed.

(** A body that stays in the loop has consumed an attempt. *)
Lemma loopBody_attempts snap terms o ls :
  (loopBody snap terms o ls).2 = false ->
  attempts (loopBody snap terms o ls).1 = S (attempts ls).
Proof.
  unfold loopBody. case_bool_decide; [done|].
  destruct (cache snap !! _); [done|].
  destruct (response o) as [|[papers|]]; [done| |done].
  destruct (0 <? length papers)%nat; [|done].
  by destruct (0 <? length (fetchedArticles o papers))%nat.
Qed.

(** The loop ends within [maxAttempts] iterations: more fuel than
    [maxAttempts - attempts + 1] changes nothing. *)
Lemma whileLoop_fuel fuel fuel' snap terms env ls :
  (maxAttempts - attempts ls < fuel)%nat ->
  (maxAttempts - attempts ls < fuel')%nat ->
  whileLoop fuel snap terms env ls = whileLoop fuel' snap terms env ls.
Proof.
  revert fuel' ls. induction fuel as [|fuel IH]; intros fuel' ls Hf Hf'; [lia|].
  destruct fuel' as [|fuel']; [lia|]. simpl.
  destruct (length (newArticles ls) =? 0)%nat; [|done]. simpl.
  destruct (Nat.ltb_spec (attempts ls) maxAttempts) as [Hlt|]; [|done].
  pose proof (loopBody_attempts snap terms (env (attempts ls)) ls) as Hatt.
  destruct (loopBody snap terms (env (attempts ls)) ls) as [ls' [|]]; [done|].
  simpl in Hatt. specialize (Hatt eq_refl).
  apply IH; lia.
Qed.

(** Any fuel above [maxAttempts] gives the result of [runLoop]: the loop
    never stops for lack of fuel. *)
Lemma runLoop_fuel snap env fuel :
  (maxAttempts < fuel)%nat ->
  whileLoop fuel snap (getRecommendedTerms (userPreferences snap)) env
    (mkLoop 0 [] []) = runLoop snap env.
Proof.
  intros Hf. unfold runLoop. apply whileLoop_fuel; unfold maxAttempts in *; simpl; lia.
Qed.

Lemma usedCacheKeys_applyAction st a k :
  k ∈ usedCacheKeys st -> k ∈ usedCacheKeys (applyAction st a).
Proof. destruct a; simpl; try done. intros. apply elem_of_union. by left. Qed.

Lemma usedCacheKeys_applyActions st l k :
  k ∈ usedCacheKeys st -> k ∈ usedCacheKeys (applyActions st l).
Proof.
  revert st. induction l as [|a l IH]; intros st Hk; simpl; [done|].
  apply IH. by apply usedCacheKeys_applyAction.
Qed.

Lemma usedCacheKeys_session st envs k :
  k ∈ usedCacheKeys st -> k ∈ usedCacheKeys (session st envs).
Proof.
  revert st. induction envs as [|env envs IH]; intros st Hk; simpl; [done|].
  apply IH. by apply usedCacheKeys_applyActions.
Qed.

Lemma loopBody_touches snap terms o ls k :
  k ∈ usedCacheKeys snap ->
  Forall (fun a => ~ touchesKey k a) (log ls) ->
  Forall (fun a => ~ touchesKey k a) (log (loopBody snap terms o ls).1).
Proof.
  intros Hk Hlog. unfold loopBody. fold (drawKey terms o).
  case_bool_decide as Hused; [done|].
  destruct (cache snap !! drawKey terms o); [done|].
  assert (Hne : drawKey terms o ≠ k) by congruence.
  assert (Hasked : Forall (fun a => ~ touchesKey k a)
            (log ls ++ [FetchUrl (drawTerm terms o) (randomOffset o)])).
  { apply Forall_app. split; [done|]. by repeat constructor. }
  destruct (response o) as [|[papers|]]; simpl; [|  |done].
  - apply Forall_app. split; [done|]. repeat constructor. simpl. tauto.
  - destruct (0 <? length papers)%nat; [|done].
    destruct (0 <? length (fetchedArticles o papers))%nat; [|done]. simpl.
    apply Forall_app. split; [done|].
    repeat constructor; simpl; [done|done|].
    unfold drawKey in Hne. intros Heq. apply Hne.
    by simplify_eq/=.
Qed.

Lemma whileLoop_touches fuel snap terms env ls k :
  k ∈ usedCacheKeys snap ->
  Forall (fun a => ~ touchesKey k a) (log ls) ->
  Forall (fun a => ~ touchesKey k a) (log (whileLoop fuel snap terms env ls)).
Proof.
  intros Hk. revert ls. induction fuel as [|fuel IH]; intros ls Hlog; simpl; [done|].
  destruct (_ && _); [|done].
  pose proof (loopBody_touches snap terms (env (attempts ls)) ls k Hk Hlog) as Hb.
  destruct (loopBody snap terms (env (attempts ls)) ls) as [ls' [|]]; [done|].
  by apply IH.
Qed.

Lemma fetchArticles_touches snap env k :
  k ∈ usedCacheKeys snap ->
  Forall (fun a => ~ touchesKey k a) (fetchArticles snap env).
Proof.
  intros Hk. unfold fetchArticles. destruct (loading snap); [constructor|].
  constructor; [simpl; tauto|].
  apply Forall_app. split.
  - apply whileLoop_touches; [done|constructor].
  - apply Forall_app. split.
    + destruct (0 <? _)%nat; repeat constructor. simpl; tauto.
    + repeat constructor. simpl; tauto.
Qed.

(** A fetch whose first attempt hits the cache. *)
Lemma fetchStep_cache_hit snap env cached :
  loading snap = false ->
  drawKey (getRecommendedTerms (userPreferences snap)) (env 0%nat)
    ∉ usedCacheKeys snap ->
  cache snap !! drawKey (getRecommendedTerms (userPreferences snap)) (env 0%nat)
    = Some cached ->
  runLoop snap env = mkLoop 0 cached [] /\
  usedCacheKeys (fetchStep snap env) = usedCacheKeys snap /\
  cache (fetchStep snap env) = cache snap /\
  articles (fetchStep snap env) = appendUnique (articles snap) cached.
Proof.
  intros Hload Hnot Hhit.
  assert (Hrun : runLoop snap env = mkLoop 0 cached []).
  { unfold runLoop. simpl.
    by rewrite (loopBody_cached _ _ _ _ cached Hnot Hhit). }
  split; [done|].
  unfold fetchStep, fetchArticles. rewrite Hload, Hrun. simpl.
  destruct cached as [|c cached]; simpl; [|done].
  unfold appendUnique. simpl. by rewrite app_nil_r.
Qed.

(** A fetch whose first attempt gets a qualifying batch from the
    provider. *)
Lemma runLoop_fetched snap env papers :
  drawKey (getRecommendedTerms (userPreferences snap)) (env 0%nat)
    ∉ usedCacheKeys snap ->
  cache snap !! drawKey (getRecommendedTerms (userPreferences snap)) (env 0%nat)
    = None ->
  response (env 0%nat) = Json (Some papers) ->
  fetchedArticles (env 0%nat) papers ≠ [] ->
  newArticles (runLoop snap env) = fetchedArticles (env 0%nat) papers.
Proof.
  intros Hnot Hmiss Hresp Hne.
  unfold runLoop. simpl. unfold loopBody.
  fold (drawKey (getRecommendedTerms (userPreferences snap)) (env 0%nat)).
  rewrite (bool_decide_eq_false_2 _ Hnot), Hmiss, Hresp.
  assert (Hlen : (0 <? length (fetchedArticles (env 0%nat) papers))%nat = true).
  { apply Nat.ltb_lt. destruct (fetchedArticles (env 0%nat) papers); simpl; [done|lia]. }
  assert (Hpapers : (0 <? length papers)%nat = true).
  { apply Nat.ltb_lt. destruct papers; simpl; [|lia].
    by unfold fetchedArticles in Hne. }
  rewrite Hpapers, Hlen. simpl.
  destruct (fetchedArticles (env 0%nat) papers); [done|]. reflexivity.
Qed.

End Fetch.

(** The branch of lines 113-117.  When the key drawn by an attempt is not in the
    used-key set and has an entry in the cache, the body takes the cached
    list as the batch and leaves the loop by [break]; it consumes no attempt
    and makes no setter call or query, so the used-key set is left as it
    was.  When this happens on the first attempt, the whole fetch appends
    the cached list and changes neither the cache nor the used-key set. *)
Theorem cache_hit_adopts_batch (snap : AppState) (env : nat -> Oracle)
  (terms : list string) (o : Oracle) (ls : LoopState) (cached : list Article) :
  drawKey terms o ∉ usedCacheKeys snap ->
  cache snap !! drawKey terms o = Some cached ->
  loopBody snap terms o ls = (mkLoop (attempts ls) cached (log ls), true) /\
  (o = env 0%nat -> terms = getRecommendedTerms (userPreferences snap) ->
   loading snap = false ->
   runLoop snap env = mkLoop 0 cached [] /\
   usedCacheKeys (fetchStep snap env) = usedCacheKeys snap /\
   cache (fetchStep snap env) = cache snap /\
   articles (fetchStep snap env) = appendUnique (articles snap) cached).
Proof.
  intros Hnot Hhit. split; [by apply loopBody_cached|].
  intros -> -> Hload. by apply fetchStep_cache_hit.
Qed.

Lemma cache_hit_adopts_batch_witness :
  loopBody snapCached SEARCH_TERMS (drawAi7 NetworkError) (mkLoop 1 [] []) =
    (mkLoop 1 [articleOf "p1"] [], true).
Proof.
  apply (cache_hit_adopts_batch snapCached (fun _ => drawAi7 NetworkError)
           SEARCH_TERMS (drawAi7 NetworkError) (mkLoop 1 [] []) [articleOf "p1"]).
  - apply not_elem_of_empty.
  - apply lookup_singleton_eq.
Defined.


(** The guard of line 93: a call of [fetchArticles] from a render in which
    [loading] is true makes no setter call and no query, whatever the state
    is then. *)
Lemma fetchArticles_while_loading (snap : AppState) (env : nat -> Oracle) :
  loading snap = true ->
  fetchArticles snap env = [] /\
  forall st,
    articles (applyActions st (fetchArticles snap env)) = articles st /\
    cache (applyActions st (fetchArticles snap env)) = cache st /\
    usedCacheKeys (applyActions st (fetchArticles snap env)) = usedCacheKeys st.
Proof.
  intros Hload. unfold fetchArticles. rewrite Hload. by split.
Qed.

(** C7 fails at every mount.  The first commit calls the [fetchArticles] of
    the initial render twice, from the mount effect and from the buffer-low
    effect.  The first call sets [loading]; the second is made while the
    first is in flight, and its guard reads the [loading] of the initial
    render, which is false: it queries the provider and, when its answer
    comes, changes the buffer, the cache and the used-key set. *)
Theorem second_call_at_mount_is_not_blocked :
  let second := fetchArticles initialState fiveEnv in
  let after := fetchFrom initialState (inFlight initialState) fiveEnv in
  firstCommitCalls = [CallFetchArticles; CallFetchArticles] /\
  loading (inFlight initialState) = true /\
  second =
    [SetLoading true; FetchUrl "ai" 7;
     SetCache "ai-7" (batchOf (fiveEnv 0%nat));
     SetUsedCacheKeys "ai-7";
     LocalStorageSetItem "scitok-ai-7" (batchOf (fiveEnv 0%nat));
     SetArticles (batchOf (fiveEnv 0%nat)); SetLoading false] /\
  articles (inFlight initialState) = [] /\
  map id (articles after) = ["p1"; "p3"; "p5"] /\
  cache (inFlight initialState) !! "ai-7" = None /\
  cache after !! "ai-7" = Some (batchOf (fiveEnv 0%nat)) /\
  ("ai-7" ∉ usedCacheKeys (inFlight initialState)) /\
  "ai-7" ∈ usedCacheKeys after.
Proof.
  intros second after.
  assert (Hsecond : second =
    [SetLoading true; FetchUrl "ai" 7;
     SetCache "ai-7" (batchOf (fiveEnv 0%nat));
     SetUsedCacheKeys "ai-7";
     LocalStorageSetItem "scitok-ai-7" (batchOf (fiveEnv 0%nat));
     SetArticles (batchOf (fiveEnv 0%nat)); SetLoading false]) by reflexivity.
  split; [reflexivity|]. split; [reflexivity|]. split; [done|].
  subst after. unfold fetchFrom. fold second. rewrite Hsecond.
  split; [reflexivity|]. split; [reflexivity|]. split; [apply lookup_empty|].
  split; [apply lookup_insert_eq|]. split; [apply not_elem_of_empty|].
  cbn [applyActions fold_left applyAction usedCacheKeys inFlight initialState].
  apply elem_of_union. right. by apply elem_of_singleton_2.
Qed.

(** A key that is in the used-key set stays in it through every later
    fetch of a session, and an attempt that draws it, in a fetch that reads
    the set as it is then, consumes an attempt and does nothing else. *)
Lemma used_key_is_skipped (st : AppState) (envs : list (nat -> Oracle))
  (k : string) :
  k ∈ usedCacheKeys st ->
  k ∈ usedCacheKeys (session st envs) /\
  (forall terms o ls,
     drawKey terms o = k ->
     loopBody (session st envs) terms o ls =
       (mkLoop (S (attempts ls)) (newArticles ls) (log ls), false)) /\
  (forall env,
     Forall (fun a => ~ touchesKey k a) (fetchArticles (session st envs) env)).
Proof.
  intros Hk.
  pose proof (usedCacheKeys_session st envs k Hk) as Hk'.
  split; [done|]. split.
  - intros terms o ls <-. by apply loopBody_used.
  - intros env. by apply fetchArticles_touches.
Qed.

(** C8 fails for a fetch that is in flight when the key becomes used.  The
    two calls of the first commit read the used-key set of the initial
    render, which is empty.  The first draws [ai] and 7, stores its batch
    and marks [ai-7] used.  The second, whose first attempt failed, draws
    [ai] and 7 in its second attempt: the test of line 108 reads the empty
    set, so the attempt queries the provider for [ai] and 7 again and
    stores the answer under [ai-7], over the entry of the first call. *)
Theorem used_key_is_queried_again :
  let afterFirst := fetchFrom initialState (inFlight initialState) fiveEnv in
  let second := fetchArticles initialState (retryEnv (Json (Some [laterPaper]))) in
  let afterSecond := fetchFrom initialState afterFirst
                       (retryEnv (Json (Some [laterPaper]))) in
  "ai-7" ∈ usedCacheKeys afterFirst /\
  map id <$> cache afterFirst !! "ai-7" = Some ["p1"; "p3"; "p5"] /\
  map isQuery second = [false; true; false; true; false; false; false; false; false] /\
  second !! 3%nat = Some (FetchUrl "ai" 7) /\
  (exists batch, second !! 4%nat = Some (SetCache "ai-7" batch) /\ map id batch = ["q1"]) /\
  map id <$> cache afterSecond !! "ai-7" = Some ["q1"] /\
  map id (articles afterSecond) = ["p1"; "p3"; "p5"; "q1"].
Proof.
  intros afterFirst second afterSecond.
  assert (Hfirst : fetchArticles initialState fiveEnv =
    [SetLoading true; FetchUrl "ai" 7;
     SetCache "ai-7" (batchOf (fiveEnv 0%nat));
     SetUsedCacheKeys "ai-7";
     LocalStorageSetItem "scitok-ai-7" (batchOf (fiveEnv 0%nat));
     SetArticles (batchOf (fiveEnv 0%nat)); SetLoading false]) by reflexivity.
  set (later := batchOf (retryEnv (Json (Some [laterPaper])) 1%nat)).
  assert (Hsecond : second =
    [SetLoading true; FetchUrl "science" 1; ConsoleError 1;
     FetchUrl "ai" 7; SetCache "ai-7" later; SetUsedCacheKeys "ai-7";
     LocalStorageSetItem "scitok-ai-7" later; SetArticles later;
     SetLoading false]) by reflexivity.
  assert (Hused : "ai-7" ∈ usedCacheKeys afterFirst).
  { subst afterFirst. unfold fetchFrom. rewrite Hfirst.
    cbn [applyActions fold_left applyAction usedCacheKeys inFlight initialState].
    apply elem_of_union. right. by apply elem_of_singleton_2. }
  assert (Hcache : cache afterFirst !! "ai-7" = Some (batchOf (fiveEnv 0%nat))).
  { subst afterFirst. unfold fetchFrom. rewrite Hfirst. apply lookup_insert_eq. }
  split; [done|]. split; [by rewrite Hcache|].
  rewrite Hsecond. split; [reflexivity|]. split; [reflexivity|].
  split; [by exists later|].
  subst afterSecond. unfold fetchFrom. fold second. rewrite Hsecond.
  split.
  - cbn [applyActions fold_left applyAction cache]. by rewrite lookup_insert_eq.
  - cbn [applyActions fold_left applyAction articles].
    subst afterFirst. unfold fetchFrom. rewrite Hfirst. reflexivity.
Qed.

(** ** Filtering and mapping the provider's answer *)

Section Provider.

Implicit Types (o : Oracle) (paper : Paper) (papers : list Paper).

Lemma truthyStr_Some (field : option string) :
  truthyStr field = true <-> exists s, field = Some s /\ s ≠ "".
Proof.
  destruct field as [s|]; simpl.
  - rewrite negb_true_iff. destruct (String.eqb_spec s "") as [->|Hne].
    + split; [done|]. by intros (s' & [= <-] & Hs).
    + split; [|done]. intros _. by exists s.
  - split; [done|]. by intros (s & ? & _).
Qed.

Lemma qualifies_spec paper :
  qualifies paper = true <->
  exists t a, p_title paper = Some t /\ t ≠ "" /\
              p_abstract paper = Some a /\ (100 < String.length a)%nat.
Proof.
  unfold qualifies. rewrite !andb_true_iff, !truthyStr_Some, Nat.ltb_lt.
  split.
  - intros [[(a & Ha & _) (t & Ht & Hne)] Hlen].
    exists t, a. rewrite Ha in Hlen. by simpl in Hlen.
  - intros (t & a & Ht & Hne & Ha & Hlen). rewrite Ha. simpl.
    split; [split|done].
    + exists a. split; [done|]. intros ->. simpl in Hlen. lia.
    + by exists t.
Qed.


End Provider.

(** ** The article buffer *)

Section Buffer.

Implicit Types (prev batch : list Article).

(** The updater keeps the ids of the buffer distinct when those of the
    batch are distinct among themselves. *)
Lemma appendUnique_NoDup prev batch :
  NoDup (map id prev) -> NoDup (map id batch) ->
  NoDup (map id (appendUnique prev batch)).
Proof.
  intros Hprev Hbatch. unfold appendUnique. rewrite map_app.
  apply NoDup_app. split; [done|]. split.
  - intros x Hx Hx'.
    apply (list_elem_of_fmap id) in Hx' as (a & -> & Ha).
    by apply list_elem_of_filter in Ha as [Hnew _].
  - induction batch as [|a batch IH]; [constructor|].
    apply NoDup_cons in Hbatch as [Ha Hbatch].
    rewrite filter_cons. destruct (decide _); [|by apply IH].
    simpl. apply NoDup_cons. split; [|by apply IH].
    intros Hin. apply Ha.
    apply (list_elem_of_fmap id) in Hin as (b & Hb & Hin).
    apply list_elem_of_filter in Hin as [_ Hin].
    rewrite Hb. by apply (list_elem_of_fmap_2 id).
Qed.

(** Every article of the buffer stays where it is. *)
Lemma appendUnique_prefix prev batch : prev `prefix_of` appendUnique prev batch.
Proof. unfold appendUnique. by apply prefix_app_r. Qed.

End Buffer.

(** C4.  The buffer can hold two articles with the same id: from the empty
    buffer, an answer of the provider that lists the paper [p1] twice puts
    both copies in the buffer, because the updater compares a new article
    with the buffer as it was and not with the rest of its batch. *)
Theorem repeated_id_within_a_batch :
  let env := fun _ : nat => drawAi7 repeatedPaper in
  map id (articles (fetchStep initialState env)) = ["p1"; "p1"] /\
  ~ NoDup (map id (articles (fetchStep initialState env))).
Proof.
  intros env.
  assert (H : map id (articles (fetchStep initialState env)) = ["p1"; "p1"])
    by (vm_compute; reflexivity).
  split; [done|]. rewrite H. intros Hnd.
  apply NoDup_cons in Hnd as [Hnot _]. apply Hnot, list_elem_of_here.
Qed.

(** ** Sessions of fetches *)

Section Session.

Implicit Types (snap st : AppState) (ls : LoopState) (env : nat -> Oracle).

Lemma applyActions_app st l l' :
  applyActions st (l ++ l') = applyActions (applyActions st l) l'.
Proof. apply fold_left_app. Qed.

Lemma loopBody_log snap terms o ls :
  (Forall loopAction (log ls) ->
   Forall loopAction (log (loopBody snap terms o ls).1)) /\
  (forall st, cachedKeysUsed (applyActions st (log ls)) ->
              cachedKeysUsed (applyActions st (log (loopBody snap terms o ls).1))).
Proof.
  unfold loopBody. case_bool_decide; [done|].
  destruct (cache snap !! _); [done|].
  destruct (response o) as [|[papers|]]; simpl.
  - split.
    + intros Hlog. rewrite <- app_assoc. apply Forall_app.
      split; [done|]. by repeat constructor.
    + intros st. by rewrite !applyActions_app.
  - destruct (0 <? length papers)%nat; simpl.
    + destruct (0 <? length (fetchedArticles o papers))%nat; simpl.
      * split.
        -- intros Hlog. rewrite <- app_assoc. apply Forall_app.
           split; [done|]. by repeat constructor.
        -- intros st. rewrite !applyActions_app. simpl.
           unfold cachedKeysUsed. simpl. rewrite dom_insert_L.
           intros Hinv. apply union_least.
           ++ apply union_subseteq_r.
           ++ by apply union_subseteq_l'.
      * split.
        -- intros Hlog. apply Forall_app. split; [done|]. by repeat constructor.
        -- intros st. by rewrite !applyActions_app.
    + split.
      * intros Hlog. apply Forall_app. split; [done|]. by repeat constructor.
      * intros st. by rewrite !applyActions_app.
  - split.
    + intros Hlog. apply Forall_app. split; [done|]. by repeat constructor.
    + intros st. by rewrite !applyActions_app.
Qed.

Lemma whileLoop_log fuel snap terms env ls :
  (Forall loopAction (log ls) ->
   Forall loopAction (log (whileLoop fuel snap terms env ls))) /\
  (forall st, cachedKeysUsed (applyActions st (log ls)) ->
              cachedKeysUsed
                (applyActions st (log (whileLoop fuel snap terms env ls)))).
Proof.
  revert ls. induction fuel as [|fuel IH]; intros ls; simpl; [done|].
  destruct (_ && _); [|done].
  pose proof (loopBody_log snap terms (env (attempts ls)) ls) as [Hb1 Hb2].
  destruct (loopBody snap terms (env (attempts ls)) ls) as [ls' [|]];
    simpl in *; [done|].
  destruct (IH ls') as [IH1 IH2]. split; [by auto|].
  intros st Hinv. by apply IH2, Hb2.
Qed.

Lemma applyActions_articles st l :
  Forall loopAction l -> articles (applyActions st l) = articles st.
Proof.
  intros Hl. revert st. induction Hl as [|a l Ha Hl IH]; intros st; simpl; [done|].
  rewrite IH. by destruct a.
Qed.

Lemma appendUnique_nil prev : appendUnique prev [] = prev.
Proof. unfold appendUnique. simpl. apply app_nil_r. Qed.

(** What a fetch does to the buffer: it appends the articles of its batch
    whose id the buffer does not have. *)
Lemma fetchStep_articles st env :
  loading st = false ->
  articles (fetchStep st env) =
    appendUnique (articles st) (newArticles (runLoop st env)).
Proof.
  intros Hload. unfold fetchStep, fetchArticles. rewrite Hload.
  assert (Hlog : Forall loopAction (log (runLoop st env))).
  { apply whileLoop_log. constructor. }
  rewrite !applyActions_app.
  destruct (newArticles (runLoop st env)) as [|a batch] eqn:Hnew; simpl.
  - by rewrite applyActions_articles, appendUnique_nil.
  - by rewrite applyActions_articles.
Qed.

(** The ids of the buffer stay distinct through a fetch whose batch does
    not repeat an id within itself. *)
Lemma fetchStep_NoDup st env :
  NoDup (map id (articles st)) ->
  NoDup (map id (newArticles (runLoop st env))) ->
  NoDup (map id (articles (fetchStep st env))).
Proof.
  intros Hst Hbatch. destruct (loading st) eqn:Hload.
  - unfold fetchStep, fetchArticles. by rewrite Hload.
  - rewrite fetchStep_articles by done. by apply appendUnique_NoDup.
Qed.

(** Keys enter the cache and the used-key set together: in a session from
    a state where every cached key is used, every cached key stays used,
    so that the cache never answers for a key that is not used. *)
Lemma fetchStep_cachedKeysUsed st env :
  cachedKeysUsed st -> cachedKeysUsed (fetchStep st env).
Proof.
  intros Hinv. unfold fetchStep, fetchArticles.
  destruct (loading st); [done|].
  rewrite !applyActions_app.
  set (st1 := applyActions (applyActions st [SetLoading true])
                (log (runLoop st env))).
  assert (H1 : cachedKeysUsed st1).
  { subst st1. apply whileLoop_log. by simpl. }
  destruct (0 <? _)%nat; simpl; exact H1.
Qed.

Lemma session_cachedKeysUsed st envs :
  cachedKeysUsed st -> cachedKeysUsed (session st envs).
Proof.
  revert st. induction envs as [|env envs IH]; intros st Hinv; simpl; [done|].
  by apply IH, fetchStep_cachedKeysUsed.
Qed.

End Session.

(** ** What a fetch can do *)

Section Outcome.

Implicit Types (snap st : AppState) (ls : LoopState) (env : nat -> Oracle).

(** A property of the loop state that the body keeps is kept by the loop.
    The body runs only without a batch and with attempts left, on the
    oracle of the current attempt. *)
Lemma whileLoop_invariant (P : LoopState -> Prop) fuel snap terms env ls :
  (forall ls', P ls' -> newArticles ls' = [] ->
     (attempts ls' < maxAttempts)%nat ->
     P (loopBody snap terms (env (attempts ls')) ls').1) ->
  P ls -> P (whileLoop fuel snap terms env ls).
Proof.
  intros Hstep. revert ls. induction fuel as [|fuel IH]; intros ls HP; simpl; [done|].
  destruct (Nat.eqb_spec (length (newArticles ls)) 0) as [Hlen|]; [|done].
  destruct (Nat.ltb_spec (attempts ls) maxAttempts) as [Hlt|]; [|done]. simpl.
  assert (Hnil : newArticles ls = []) by by destruct (newArticles ls).
  specialize (Hstep ls HP Hnil Hlt).
  destruct (loopBody snap terms (env (attempts ls)) ls) as [ls' [|]]; [done|].
  by apply IH.
Qed.

Lemma applyActions_quiet st l : Forall quiet l -> applyActions st l = st.
Proof.
  intros Hl. revert st. induction Hl as [|a l Ha Hl IH]; intros st; simpl; [done|].
  rewrite <- (IH st) at 2. by destruct a.
Qed.

Lemma batchOf_Json o papers :
  response o = Json (Some papers) -> batchOf o = fetchedArticles o papers.
Proof. unfold batchOf. by intros ->. Qed.

Lemma loopBody_progress snap env ls :
  loopProgress snap env ls -> newArticles ls = [] ->
  (attempts ls < maxAttempts)%nat ->
  loopProgress snap env
    (loopBody snap (getRecommendedTerms (userPreferences snap))
       (env (attempts ls)) ls).1.
Proof.
  intros Hprog Hnil Hlt.
  assert (Hquiet : Forall quiet (log ls)).
  { destruct Hprog as [[_ H]|[(k & _ & _ & H)|(n & pre & _ & _ & _ & Hne & Hnew & _)]];
      [done|done|]. by rewrite Hnil in Hnew. }
  clear Hprog. unfold loopBody.
  set (terms := getRecommendedTerms (userPreferences snap)).
  set (o := env (attempts ls)).
  fold (drawKey terms o).
  case_bool_decide as Hused; [left; by rewrite Hnil|].
  destruct (cache snap !! drawKey terms o) as [cached|] eqn:Hcache.
  { right; left. by exists (drawKey terms o). }
  assert (Hasked : Forall quiet (log ls ++ [FetchUrl (drawTerm terms o) (randomOffset o)])).
  { apply Forall_app. split; [done|]. by repeat constructor. }
  destruct (response o) as [|[papers|]] eqn:Hresp; simpl.
  - left. split; [done|]. apply Forall_app. split; [done|]. by repeat constructor.
  - destruct (0 <? length papers)%nat eqn:Hpapers; simpl; [|by left].
    destruct (0 <? length (fetchedArticles o papers))%nat eqn:Hfetched; simpl;
      [|by left].
    right; right. exists (attempts ls), (log ls ++ [FetchUrl (drawTerm terms o) (randomOffset o)]).
    fold o. fold terms. rewrite (batchOf_Json o papers Hresp).
    split; [done|]. split; [done|]. split; [done|]. split.
    { intros Hn. rewrite Hn in Hfetched. discriminate. }
    by repeat split.
  - by left.
Qed.

Lemma runLoop_progress snap env : loopProgress snap env (runLoop snap env).
Proof.
  unfold runLoop.
  apply (whileLoop_invariant (loopProgress snap env)).
  - intros ls'. apply loopBody_progress.
  - left. by split.
Qed.

(** A fetch that passes its guard does one of the three things of
    [fetchOutcome]. *)
Lemma fetchStep_outcome st env :
  loading st = false -> fetchOutcome st env (fetchStep st env).
Proof.
  intros Hload. unfold fetchStep, fetchArticles. rewrite Hload.
  rewrite !applyActions_app.
  destruct (runLoop_progress st env)
    as [[Hnil Hq]|[(k & Hk & Hhit & Hq)|(n & pre & Hn & Hk & Hmiss & Hne & Hnew & Hq & Hlog)]].
  - rewrite Hnil. rewrite (applyActions_quiet _ _ Hq). simpl.
    destruct st; simpl in *; subst. constructor.
  - rewrite (applyActions_quiet _ _ Hq).
    destruct (newArticles (runLoop st env)) as [|a batch] eqn:Hnew; simpl.
    + replace (mkState _ _ _ _ _ _) with
        (mkState (appendUnique (articles st) []) (currentIndex st) false
           (userPreferences st) (cache st) (usedCacheKeys st)).
      * by eapply FetchCached.
      * unfold appendUnique. simpl. by rewrite app_nil_r.
    + by eapply FetchCached.
  - rewrite Hlog, Hnew, applyActions_app, (applyActions_quiet _ _ Hq).
    destruct (batchOf (env n)) as [|a batch] eqn:Hb; [done|]. simpl.
    rewrite <- Hb. apply FetchStored; [done|done|done|]. by rewrite Hb.
Qed.

End Outcome.

Section Attempts.

Implicit Types (snap : AppState) (env : nat -> Oracle) (ls : LoopState)
  (o : Oracle).






End Attempts.




(** ** Pagination *)

(** C1, as the code has it.  The buffer-low effect calls [fetchArticles]
    exactly once when [articles.length - currentIndex <= 3], which is
    [remaining <= 2], and no fetch is in flight; it makes no call while
    [loading] is true, and none when [remaining] is 3 or more. *)
Theorem bufferLowEffect_calls (st : AppState) :
  (remaining st <= 2 -> loading st = false ->
   bufferLowEffect st = [CallFetchArticles]) /\
  (loading st = true -> bufferLowEffect st = []) /\
  (3 <= remaining st -> bufferLowEffect st = []).
Proof.
  unfold bufferLowEffect, remaining. repeat split.
  - intros Hrem ->. simpl. rewrite andb_true_r.
    destruct (Z.leb_spec (Z.of_nat (length (articles st)) - currentIndex st) 3);
      [done|lia].
  - intros ->. simpl. by rewrite andb_false_r.
  - intros Hrem.
    destruct (Z.leb_spec (Z.of_nat (length (articles st)) - currentIndex st) 3);
      [lia|done].
Qed.

Lemma bufferLowEffect_calls_witness :
  bufferLowEffect (pageAt 4 false) = [CallFetchArticles] /\
  bufferLowEffect (pageAt 4 true) = [] /\
  bufferLowEffect (pageAt 1 false) = [].
Proof.
  destruct (bufferLowEffect_calls (pageAt 4 false)) as (H1 & _ & _).
  destruct (bufferLowEffect_calls (pageAt 4 true)) as (_ & H2 & _).
  destruct (bufferLowEffect_calls (pageAt 1 false)) as (_ & _ & H3).
  split; [apply H1; [by vm_compute|reflexivity]|].
  split; [apply H2; reflexivity|].
  apply H3. by vm_compute.
Defined.

(** C1, as the specification states it, fails: with six articles and the
    index at 2, [remaining] is 3 and no fetch is in flight, yet the effect
    makes no call. *)
Lemma no_call_when_three_remain :
  remaining (pageAt 2 false) = 3 /\
  loading (pageAt 2 false) = false /\
  length (bufferLowEffect (pageAt 2 false)) = 0%nat.
Proof. repeat split. Qed.

(** Both effects of the first commit call the [fetchArticles] of the initial
    render, and each call passes its guard, which reads the [loading] of
    that render. *)
Lemma firstCommitCalls_fetch_twice (env : nat -> Oracle) :
  firstCommitCalls = [CallFetchArticles; CallFetchArticles] /\
  head (fetchArticles initialState env) = Some (SetLoading true).
Proof. split; reflexivity. Qed.

Section Navigation.

Implicit Types (st : AppState) (loc : Locals) (p : AppState * Locals)
  (ev : event).

Lemma navigate_articles down up st : articles (navigate down up st) = articles st.
Proof.
  unfold navigate. destruct (_ && _); [done|]. by destruct (_ && _).
Qed.

Lemma navigate_moved down up st : moved st (navigate down up st).
Proof.
  unfold navigate, moved.
  destruct down; simpl.
  - destruct (Z.ltb_spec (currentIndex st) (Z.of_nat (length (articles st)) - 1));
      simpl; [by right; left|].
    destruct up; simpl; [|by left].
    destruct (Z.ltb_spec 0 (currentIndex st)); simpl; [by right; right|by left].
  - destruct up; simpl; [|by left].
    destruct (Z.ltb_spec 0 (currentIndex st)); simpl; [by right; right|by left].
Qed.

Lemma goToNext_spec st :
  goToNext st = navigate true false st.
Proof. unfold goToNext, navigate. simpl. by destruct (_ <? _). Qed.

Lemma goToPrevious_spec st :
  goToPrevious st = navigate false true st.
Proof. unfold goToPrevious, navigate. by simpl. Qed.

Lemma appendUnique_length prev batch :
  (length prev <= length (appendUnique prev batch))%nat.
Proof. unfold appendUnique. rewrite length_app. lia. Qed.

Lemma handle_moved ev p : moved p.1 (handle ev p).1.
Proof.
  destruct p as [st loc]. destruct ev; simpl;
    try (destruct (isProcessing loc); simpl; [by left|]);
    try apply navigate_moved; try (by left).
  - destruct (50 <? _); simpl; [apply navigate_moved|by left].
  - rewrite goToNext_spec. apply navigate_moved.
  - rewrite goToPrevious_spec. apply navigate_moved.
Qed.

Lemma handle_length ev p :
  (length (articles p.1) <= length (articles (handle ev p).1))%nat.
Proof.
  destruct p as [st loc]. destruct ev; simpl;
    try (destruct (isProcessing loc); simpl; [done|]);
    rewrite ?goToNext_spec, ?goToPrevious_spec, ?navigate_articles;
    try done.
  - destruct (50 <? _); simpl; by rewrite ?navigate_articles.
  - apply appendUnique_length.
Qed.

Lemma step_fst p ev : (step p ev).1 = (handle ev p).1.
Proof. unfold step. by case_bool_decide. Qed.

Lemma step_inRange p ev : indexInRange p.1 -> indexInRange (step p ev).1.
Proof.
  rewrite step_fst. unfold indexInRange.
  pose proof (handle_moved ev p) as Hm.
  pose proof (handle_length ev p) as Hl.
  unfold moved in Hm. lia.
Qed.

Lemma run_inRange p evs : indexInRange p.1 -> indexInRange (run p evs).1.
Proof.
  revert p. induction evs as [|ev evs IH]; intros p Hp; simpl; [done|].
  by apply IH, step_inRange.
Qed.

End Navigation.

Section PageModel.

Implicit Types (st : AppState) (loc : Locals) (pg : Page) (ev : event)
  (e : pageEvent).


(** On a page that has just been rendered the handlers are those of
    [handle]. *)
Lemma navigateOn_rendered down up st loc :
  navigateOn down up (renderedPage st loc) = navigate down up st.
Proof. done. Qed.

Lemma dispatch_rendered ev st loc :
  dispatch ev (renderedPage st loc) =
    mkPage (handle ev (st, loc)).1 st (handle ev (st, loc)).2.
Proof.
  destruct ev; simpl; rewrite ?goToNext_spec; try done;
    destruct (isProcessing loc); try done.
  by destruct (50 <? _).
Qed.

(** [step] is one event followed by a render. *)
Lemma step_render ev st loc :
  render (dispatch ev (renderedPage st loc)) =
    renderedPage (step (st, loc) ev).1 (step (st, loc) ev).2.
Proof.
  rewrite dispatch_rendered. unfold render, step, renderedPage. simpl.
  by case_bool_decide.
Qed.

Lemma pageRun_renderedAfterEach evs st loc :
  pageRun (renderedPage st loc) (renderedAfterEach evs) =
    renderedPage (run (st, loc) evs).1 (run (st, loc) evs).2.
Proof.
  revert st loc. induction evs as [|ev evs IH]; intros st loc; [done|].
  cbn [renderedAfterEach flat_map app pageRun fold_left pageStep run].
  rewrite step_render.
  destruct (step (st, loc) ev) as [st' loc'] eqn:Hstep. apply IH.
Qed.

(** In that schedule every guard reads the current index. *)
Lemma guardReadsCurrent_rendered ev st loc :
  guardReadsCurrent (renderedPage st loc) (Dispatch ev) = true.
Proof.
  unfold guardReadsCurrent. simpl.
  destruct (directionOf loc ev); [|  |done];
    rewrite Z.eqb_refl; apply orb_true_r.
Qed.

Lemma guardsReadCurrent_renderedAfterEach evs st loc :
  guardsReadCurrent (renderedPage st loc) (renderedAfterEach evs) = true.
Proof.
  revert st loc. induction evs as [|ev evs IH]; intros st loc; [done|].
  cbn [renderedAfterEach flat_map app guardsReadCurrent pageStep].
  rewrite guardReadsCurrent_rendered, step_render. simpl. apply IH.
Qed.





Lemma navigateOn_still pg : navigateOn false false pg = committed pg.
Proof. done. Qed.





(** While the flag is set and the last move has been rendered, events of
    the window and renders change nothing but [touchStartY]. *)
Lemma pageRun_blocked es pg :
  isProcessing (effectLocals pg) = true ->
  currentIndex (rendered pg) = currentIndex (committed pg) ->
  length (articles (rendered pg)) = length (articles (committed pg)) ->
  Forall windowOrRender es ->
  committed (pageRun pg es) = committed pg /\
  isProcessing (effectLocals (pageRun pg es)) = true.
Proof.
  intros Hflag Hidx Hlen Hes. revert pg Hflag Hidx Hlen.
  induction Hes as [|e es He Hes IH]; intros pg Hflag Hidx Hlen; [done|].
  cbn [pageRun fold_left].
  assert (Hstep : committed (pageStep pg e) = committed pg /\
                  isProcessing (effectLocals (pageStep pg e)) = true /\
                  currentIndex (rendered (pageStep pg e)) = currentIndex (committed pg) /\
                  length (articles (rendered (pageStep pg e))) =
                    length (articles (committed pg))).
  { destruct e as [ev|]; simpl.
    - destruct ev; simpl in He; try done; simpl; rewrite ?Hflag; done.
    - rewrite bool_decide_eq_true_2; done. }
  destruct Hstep as (Hc & Hf & Hi & Hl).
  destruct (IH (pageStep pg e)) as [Hc' Hf']; [done|by rewrite Hc|by rewrite Hc|].
  split; [|done]. unfold pageRun in Hc'. by rewrite Hc'.
Qed.

End PageModel.



(** ** Durable storage and JSON *)

Section Parser.

Implicit Types (s r : string) (fuel : nat).

Lemma skipWs_length s : (String.length (skipWs s) <= String.length s)%nat.
Proof. induction s as [|c s IH]; simpl; [done|]. destruct (isWs c); simpl; lia. Qed.

Lemma skipWs_cons s c r :
  skipWs s = String c r -> (String.length r < String.length s)%nat.
Proof.
  intros H. pose proof (skipWs_length s) as Hle. rewrite H in Hle. simpl in Hle. lia.
Qed.

Lemma stripPrefix_length p s r :
  stripPrefix p s = Some r ->
  (String.length r + String.length p = String.length s)%nat.
Proof.
  revert s. induction p as [|a p IH]; intros s; simpl.
  - intros [= ->]. lia.
  - destruct s as [|b s]; [done|]. destruct (Ascii.eqb a b); [|done].
    intros H. apply IH in H. simpl. lia.
Qed.

Lemma spanDigits_length s :
  (String.length (spanDigits s).2 <= String.length s)%nat.
Proof.
  induction s as [|c s IH]; simpl; [done|].
  destruct (isDigit c); simpl; [|lia].
  destruct (spanDigits s); simpl in *. lia.
Qed.

Lemma parseInt_length s i r :
  parseInt s = Some (i, r) -> (String.length r < String.length s)%nat.
Proof.
  destruct s as [|c s]; simpl; [done|].
  destruct (Ascii.eqb c "0"); [intros [= _ <-]; lia|].
  destruct (isDigit c); [|done].
  pose proof (spanDigits_length s) as Hle.
  destruct (spanDigits s); simpl in *. intros [= _ <-]. lia.
Qed.

Lemma parseFrac_length s f r :
  parseFrac s = Some (f, r) -> (String.length r <= String.length s)%nat.
Proof.
  destruct s as [|c s]; simpl; [by intros [= _ <-]|].
  destruct (Ascii.eqb c "."); [|intros [= _ <-]; simpl; lia].
  pose proof (spanDigits_length s) as Hle.
  destruct (spanDigits s) as [d rest]; simpl in *.
  destruct (String.eqb d ""); [done|]. intros [= _ <-]. lia.
Qed.

Lemma parseExp_length s e r :
  parseExp s = Some (e, r) -> (String.length r <= String.length s)%nat.
Proof.
  destruct s as [|c s]; simpl; [by intros [= _ <-]|].
  destruct (_ || _); [|intros [= _ <-]; simpl; lia].
  destruct s as [|c' s']; simpl.
  - done.
  - destruct (_ || _).
    + pose proof (spanDigits_length s') as Hle.
      destruct (spanDigits s') as [d rest]; simpl in *.
      destruct (String.eqb d ""); [done|]. intros [= _ <-]. lia.
    + pose proof (spanDigits_length (String c' s')) as Hle.
      destruct (spanDigits (String c' s')) as [d rest]; simpl in *.
      destruct (String.eqb d ""); [done|]. intros [= _ <-]. lia.
Qed.

Lemma parseNumber_length s lit r :
  parseNumber s = Some (lit, r) -> (String.length r < String.length s)%nat.
Proof.
  unfold parseNumber.
  set (split := match s with
                | String c r0 => if Ascii.eqb c "-" then ("-", r0) else ("", s)
                | EmptyString => ("", s)
                end).
  assert (Hs1 : (String.length split.2 <= String.length s)%nat).
  { subst split. destruct s as [|c s]; simpl; [done|].
    destruct (Ascii.eqb c "-"); simpl; lia. }
  destruct split as [sign s1]. simpl in Hs1.
  destruct (parseInt s1) as [[i s2]|] eqn:Hi; simpl; [|done].
  destruct (parseFrac s2) as [[f s3]|] eqn:Hf; simpl; [|done].
  destruct (parseExp s3) as [[e s4]|] eqn:He; simpl; [|done].
  intros [= _ <-].
  apply parseInt_length in Hi. apply parseFrac_length in Hf.
  apply parseExp_length in He. lia.
Qed.

Lemma parseStringBody_length s b r :
  parseStringBody s = Some (b, r) -> (String.length r < String.length s)%nat.
Proof.
  remember (String.length s) as n eqn:Hn. revert s b r Hn.
  induction n as [n IH] using lt_wf_ind. intros s b r ->.
  destruct s as [|c s]; simpl; [done|].
  destruct (Ascii.eqb c dquote); [intros [= _ <-]; lia|].
  destruct (Ascii.eqb c "\").
  - destruct s as [|e s]; [done|].
    destruct (isSimpleEscape e).
    + destruct (parseStringBody s) as [[b' rest]|] eqn:Hb; [|done].
      intros [= _ <-].
      specialize (IH (String.length s) ltac:(simpl; lia) s b' rest eq_refl Hb).
      simpl. lia.
    + destruct (Ascii.eqb e "u"); [|done].
      destruct s as [|h1 [|h2 [|h3 [|h4 s]]]]; try done.
      destruct (_ && _ && _ && _); [|done].
      destruct (parseStringBody s) as [[b' rest]|] eqn:Hb; [|done].
      intros [= _ <-].
      specialize (IH (String.length s) ltac:(simpl; lia) s b' rest eq_refl Hb).
      simpl. lia.
  - destruct (_ <? _)%nat; [done|].
    destruct (parseStringBody s) as [[b' rest]|] eqn:Hb; [|done].
    intros [= _ <-].
    specialize (IH (String.length s) ltac:(simpl; lia) s b' rest eq_refl Hb).
    lia.
Qed.

Lemma parseLiteral_spec s :
  parseLiteral s ≠ OutOfFuel /\
  forall v r, parseLiteral s = Parsed v r ->
              (String.length r < String.length s)%nat.
Proof.
  unfold parseLiteral.
  destruct (stripPrefix "null" s) as [r1|] eqn:H1.
  { apply stripPrefix_length in H1. simpl in H1.
    split; [done|]. intros v r [= _ <-]. lia. }
  destruct (stripPrefix "true" s) as [r2|] eqn:H2.
  { apply stripPrefix_length in H2. simpl in H2.
    split; [done|]. intros v r [= _ <-]. lia. }
  destruct (stripPrefix "false" s) as [r3|] eqn:H3.
  { apply stripPrefix_length in H3. simpl in H3.
    split; [done|]. intros v r [= _ <-]. lia. }
  destruct (parseNumber s) as [[lit rest]|] eqn:Hn; [|done].
  apply parseNumber_length in Hn.
  split; [done|]. intros v r [= _ <-]. lia.
Qed.

Lemma inFuel_map {A B : Type} (f : A -> B) (p : parsed A) s s' :
  (String.length s' <= String.length s)%nat ->
  inFuel p s' -> inFuel (parsedMap f p) s.
Proof.
  intros Hle [Hne Hlen]. destruct p as [a r| |]; simpl; split; try done.
  intros b r' [= _ <-]. specialize (Hlen a r eq_refl). lia.
Qed.

(** With twice the length of the text and one more, or two more for a
    list of elements or members, no parser runs out of fuel, and what a
    parser leaves is shorter than what it was given. *)
Lemma parse_inFuel fuel :
  (forall s, (2 * String.length s + 1 <= fuel)%nat ->
             inFuel (parseValue fuel s) s) /\
  (forall s, (2 * String.length s + 2 <= fuel)%nat ->
             inFuel (parseElements fuel s) s) /\
  (forall s, (2 * String.length s + 2 <= fuel)%nat ->
             inFuel (parseMembers fuel s) s).
Proof.
  induction fuel as [|fuel (IHv & IHe & IHm)].
  { repeat split; intros; lia. }
  split; [|split]; intros s Hs; simpl.
  - pose proof (skipWs_length s) as Hws.
    destruct (skipWs s) as [|c r] eqn:Hskip; [by split|].
    simpl in Hws.
    destruct (Ascii.eqb c "[").
    { pose proof (skipWs_length r) as Hws'.
      destruct (skipWs r) as [|c' r'] eqn:Hskip'; [by split|]. simpl in Hws'.
      destruct (Ascii.eqb c' "]").
      - split; [done|]. intros v r0 [= _ <-]. lia.
      - apply (inFuel_map _ _ _ r); [lia|]. apply IHe. lia. }
    destruct (Ascii.eqb c "{").
    { pose proof (skipWs_length r) as Hws'.
      destruct (skipWs r) as [|c' r'] eqn:Hskip'; [by split|]. simpl in Hws'.
      destruct (Ascii.eqb c' "}").
      - split; [done|]. intros v r0 [= _ <-]. lia.
      - apply (inFuel_map _ _ _ r); [lia|]. apply IHm. lia. }
    destruct (Ascii.eqb c dquote).
    { destruct (parseStringBody r) as [[b rest]|] eqn:Hb; [|by split].
      apply parseStringBody_length in Hb.
      split; [done|]. intros v r0 [= _ <-]. lia. }
    destruct (parseLiteral_spec (String c r)) as [Hne Hlen].
    split; [done|]. intros v r0 Hp. apply Hlen in Hp. simpl in Hp. lia.
  - destruct (IHv s) as [Hne Hlen]; [lia|].
    destruct (parseValue fuel s) as [v r| |] eqn:Hv; [|by split|done].
    specialize (Hlen v r eq_refl).
    pose proof (skipWs_length r) as Hws.
    destruct (skipWs r) as [|c r'] eqn:Hskip; [by split|]. simpl in Hws.
    destruct (Ascii.eqb c ",").
    { apply (inFuel_map _ _ _ r'); [lia|]. apply IHe. lia. }
    destruct (Ascii.eqb c "]"); [|by split].
    split; [done|]. intros vs r0 [= _ <-]. lia.
  - pose proof (skipWs_length s) as Hws.
    destruct (skipWs s) as [|c r] eqn:Hskip; [by split|]. simpl in Hws.
    destruct (Ascii.eqb c dquote); [|by split].
    destruct (parseStringBody r) as [[k r1]|] eqn:Hk; [|by split].
    apply parseStringBody_length in Hk.
    pose proof (skipWs_length r1) as Hws1.
    destruct (skipWs r1) as [|c1 r2] eqn:Hskip1; [by split|]. simpl in Hws1.
    destruct (Ascii.eqb c1 ":"); [|by split].
    destruct (IHv r2) as [Hne Hlen]; [lia|].
    destruct (parseValue fuel r2) as [v r3| |] eqn:Hv; [|by split|done].
    specialize (Hlen v r3 eq_refl).
    pose proof (skipWs_length r3) as Hws3.
    destruct (skipWs r3) as [|c3 r4] eqn:Hskip3; [by split|]. simpl in Hws3.
    destruct (Ascii.eqb c3 ",").
    { apply (inFuel_map _ _ _ r4); [lia|]. apply IHm. lia. }
    destruct (Ascii.eqb c3 "}"); [|by split].
    split; [done|]. intros ms r0 [= _ <-]. lia.
Qed.

(** [JSON_parse] gives its parser fuel enough: a [None] is a syntax
    error of the text. *)
Lemma JSON_parse_fuel text : parseValue (parseFuel text) text ≠ OutOfFuel.
Proof.
  destruct (parse_inFuel (parseFuel text)) as (Hv & _ & _).
  apply (Hv text). unfold parseFuel. lia.
Qed.

End Parser.

Section Storage.

Implicit Types (storage : gmap string string) (savedId : string).

(** When every snapshot that is present and not empty parses, the [map]
    returns, and what its [filter] keeps are the contributions of the
    ids, in order. *)
Lemma mapOutcome_readSaved storage (ids : list string) :
  (forall savedId saved,
     savedId ∈ ids -> storage !! ("scitok-saved-" +:+ savedId) = Some saved ->
     saved ≠ "" -> is_Some (JSON_parse saved)) ->
  exists vs, mapOutcome (readSaved storage) ids = Returns vs /\
             filter (fun v => truthy v = true) vs = omap (savedValue storage) ids.
Proof.
  induction ids as [|savedId ids IH]; intros Hall.
  - by exists [].
  - destruct IH as (vs & Hvs & Hfilter).
    { intros i saved Hi. apply Hall. by apply list_elem_of_further. }
    cbn [mapOutcome omap list_omap]. rewrite Hvs, <- Hfilter.
    unfold readSaved, savedValue.
    destruct (storage !! ("scitok-saved-" +:+ savedId)) as [saved|] eqn:Hget.
    + destruct (String.eqb_spec saved "") as [->|Hne]; simpl.
      * by exists (JNull :: vs).
      * destruct (Hall savedId saved) as [v Hv];
          [apply list_elem_of_here|done|done|].
        unfold parseOrThrow. rewrite Hv. simpl.
        exists (v :: vs). split; [done|]. rewrite filter_cons.
        destruct (truthy v); by simpl.
    + by exists (JNull :: vs).
Qed.


End Storage.




(** * Further properties *)

(** ** Fetches, further *)

Section FetchExtras.

Implicit Types (snap st : AppState) (ls : LoopState) (env : nat -> Oracle).

Lemma queries_app l l' : queries (l ++ l') = (queries l + queries l')%nat.
Proof. unfold queries. by rewrite filter_app, length_app. Qed.

Lemma loopBody_queries snap terms o ls :
  (queries (log ls) <= attempts ls)%nat ->
  (queries (log (loopBody snap terms o ls).1) <=
   attempts (loopBody snap terms o ls).1)%nat.
Proof.
  intros Hq. unfold loopBody. case_bool_decide; simpl; [lia|].
  destruct (cache snap !! _); simpl; [done|].
  destruct (response o) as [|[papers|]]; simpl;
    repeat (destruct (0 <? _)%nat; simpl);
    unfold queries in *; rewrite ?filter_app, ?length_app; simpl; lia.
Qed.

Lemma applyActions_loading st l :
  Forall loopAction l -> loading (applyActions st l) = loading st.
Proof.
  intros Hl. revert st. induction Hl as [|a l Ha Hl IH]; intros st; simpl; [done|].
  rewrite IH. by destruct a.
Qed.

Lemma fetchStep_frame st env :
  currentIndex (fetchStep st env) = currentIndex st /\
  userPreferences (fetchStep st env) = userPreferences st /\
  articles st `prefix_of` articles (fetchStep st env) /\
  (forall k batch, cache st !! k = Some batch ->
                   cache (fetchStep st env) !! k = Some batch).
Proof.
  destruct (loading st) eqn:Hload.
  { unfold fetchStep, fetchArticles. rewrite Hload. by simpl. }
  destruct (fetchStep_outcome st env Hload) as [|k cached Hk Hhit|n Hn Hk Hmiss Hne];
    simpl.
  - done.
  - repeat split; [apply appendUnique_prefix|done].
  - repeat split; [apply appendUnique_prefix|].
    intros k batch Hget. rewrite lookup_insert_ne; [done|]. congruence.
Qed.

Lemma toArticle_qualified o i paper :
  qualifies paper = true -> qualified (toArticle o i paper).
Proof.
  intros Hq. apply qualifies_spec in Hq as (t & a & Ht & Hne & Ha & Hlen).
  unfold qualified, toArticle. simpl. rewrite Ht, Ha. simpl.
  repeat split; try done.
  destruct (p_url paper) as [u|]; simpl; [|done].
  by destruct (String.eqb_spec u "").
Qed.

Lemma batchOf_qualified o : Forall qualified (batchOf o).
Proof.
  unfold batchOf. destruct (response o) as [|[papers|]]; [constructor| |constructor].
  unfold fetchedArticles. apply Forall_forall. intros a Ha.
  apply list_elem_of_lookup in Ha as [i Hi].
  rewrite list_lookup_imap in Hi.
  destruct (filter _ papers !! i) as [paper|] eqn:Hp; [|done].
  simpl in Hi. injection Hi as <-.
  apply toArticle_qualified.
  apply list_elem_of_lookup_2 in Hp. by apply list_elem_of_filter in Hp as [? _].
Qed.

Lemma appendUnique_Forall (P : Article -> Prop) prev batch :
  Forall P prev -> Forall P batch -> Forall P (appendUnique prev batch).
Proof.
  intros Hprev Hbatch. unfold appendUnique. apply Forall_app. split; [done|].
  apply Forall_forall. intros a Ha. apply list_elem_of_filter in Ha as [_ Ha].
  rewrite Forall_forall in Hbatch. by apply Hbatch.
Qed.

Lemma fetchStep_feedQualified st env :
  feedQualified st -> feedQualified (fetchStep st env).
Proof.
  intros [Harts Hcache]. destruct (loading st) eqn:Hload.
  { unfold fetchStep, fetchArticles. by rewrite Hload. }
  destruct (fetchStep_outcome st env Hload) as [|k cached Hk Hhit|n Hn Hk Hmiss Hne].
  - done.
  - split; [|done]. simpl. apply appendUnique_Forall; [done|].
    by destruct (Hcache k cached Hhit).
  - split; simpl.
    + apply appendUnique_Forall; [done|apply batchOf_qualified].
    + apply map_Forall_insert_2; [|done]. split; [done|apply batchOf_qualified].
Qed.

Lemma cachedKeysUsed_no_hit st k :
  cachedKeysUsed st -> k ∉ usedCacheKeys st -> cache st !! k = None.
Proof.
  intros Hinv Hk. apply not_elem_of_dom. intros Hin. by apply Hk, Hinv.
Qed.

End FetchExtras.

(** X1.  A call of [fetchArticles] queries the provider at most
    [maxAttempts] times, three, whatever the draws and the answers are. *)
Theorem fetchArticles_queries_bounded (snap : AppState) (env : nat -> Oracle) :
  (queries (fetchArticles snap env) <= maxAttempts)%nat.
Proof.
  unfold fetchArticles. destruct (loading snap); [unfold queries; simpl; lia|].
  assert (H : (queries (log (runLoop snap env)) <= attempts (runLoop snap env) /\
               attempts (runLoop snap env) <= maxAttempts)%nat).
  { unfold runLoop.
    apply (whileLoop_invariant
             (fun ls => (queries (log ls) <= attempts ls /\
                         attempts ls <= maxAttempts)%nat)).
    - intros ls [Hq Ha] _ Hlt. split; [by apply loopBody_queries|].
      pose proof (loopBody_attempts snap
        (getRecommendedTerms (userPreferences snap)) (env (attempts ls)) ls) as Hatt.
      destruct (loopBody _ _ _ ls) as [ls' [|]] eqn:Hbody; simpl in *.
      + unfold loopBody in Hbody. case_bool_decide; [done|].
        destruct (cache snap !! _); [|by repeat case_match].
        injection Hbody as <-. simpl. lia.
      + rewrite Hatt by done. lia.
    - simpl. unfold queries, maxAttempts. simpl. lia. }
  rewrite !queries_app.
  assert (queries [SetLoading true] = 0%nat) as -> by done.
  assert (queries [SetLoading false] = 0%nat) as -> by done.
  destruct (0 <? _)%nat; unfold queries in *; simpl; lia.
Qed.



(** X3.  Through a session of fetches the buffer only grows at its end:
    the buffer of the start is a prefix of the buffer of the end, and
    [currentIndex] and the preferences are as at the start. *)
Theorem session_appends_only (st : AppState) (envs : list (nat -> Oracle)) :
  articles st `prefix_of` articles (session st envs) /\
  currentIndex (session st envs) = currentIndex st /\
  userPreferences (session st envs) = userPreferences st.
Proof.
  revert st. induction envs as [|env envs IH]; intros st; simpl; [done|].
  destruct (fetchStep_frame st env) as (Hi & Hp & Ha & _).
  destruct (IH (fetchStep st env)) as (Ha' & Hi' & Hp').
  split; [by etrans|]. split; congruence.
Qed.

(** X4.  A fetch created by a render whose used-key set has a key never
    asks the provider for that key and never rewrites its cache entry,
    whatever the state is that its setter calls are applied to; the key
    stays used. *)
Theorem used_key_entry_is_kept (snap st : AppState) (env : nat -> Oracle)
  (k : string) :
  k ∈ usedCacheKeys snap ->
  cache (fetchFrom snap st env) !! k = cache st !! k /\
  (forall term offset, cacheKey term offset = k ->
     FetchUrl term offset ∉ fetchArticles snap env) /\
  (k ∈ usedCacheKeys st -> k ∈ usedCacheKeys (fetchFrom snap st env)).
Proof.
  intros Hk.
  pose proof (fetchArticles_touches snap env k Hk) as Hnone.
  split; [|split].
  - unfold fetchFrom. revert st.
    induction Hnone as [|a l Ha Hl IH]; intros st; [done|].
    cbn [applyActions fold_left]. unfold applyActions in IH. rewrite IH.
    destruct a; simpl in *; try done.
    by rewrite lookup_insert_ne.
  - intros term offset Hkey Hin.
    rewrite Forall_forall in Hnone. by apply (Hnone _ Hin).
  - apply usedCacheKeys_applyActions.
Qed.

Lemma used_key_entry_is_kept_witness :
  cache (fetchFrom snapUsed (fetchStep initialState fiveEnv)
           (fun _ => drawAi7 (Json (Some [laterPaper])))) !! "ai-7" =
  cache (fetchStep initialState fiveEnv) !! "ai-7".
Proof.
  apply (used_key_entry_is_kept snapUsed).
  change ("ai-7" ∈ ({[ "ai-7" ]} : gset string)).
  apply elem_of_singleton_2. reflexivity.
Defined.

(** X5.  When the buffer and the cache hold only articles with a non-empty
    title, an abstract of more than 100 characters, a non-empty url and the
    source [semantic], and the cache has no empty batch, the same holds
    after every session of fetches: nothing else gets past the filter and
    the map of a fetch. *)
Theorem session_feedQualified (st : AppState) (envs : list (nat -> Oracle)) :
  feedQualified st -> feedQualified (session st envs).
Proof.
  revert st. induction envs as [|env envs IH]; intros st Hst; simpl; [done|].
  by apply IH, fetchStep_feedQualified.
Qed.

Lemma session_feedQualified_witness :
  feedQualified (session initialState [fiveEnv; failingEnv; fiveEnv]).
Proof.
  apply (session_feedQualified initialState).
  split; [constructor|apply map_Forall_empty].
Defined.



(** X7.  When every cached key is used, this stays so through every
    session of fetches, and then no attempt finds its key in the cache: the
    loop body never leaves by [break], so every batch that a fetch appends
    was answered by the provider during that fetch. *)
Theorem cache_is_never_hit (st : AppState) (envs : list (nat -> Oracle)) :
  cachedKeysUsed st ->
  cachedKeysUsed (session st envs) /\
  forall terms o ls, (loopBody (session st envs) terms o ls).2 = false.
Proof.
  intros Hinv.
  pose proof (session_cachedKeysUsed st envs Hinv) as Hinv'.
  split; [done|]. intros terms o ls. unfold loopBody.
  case_bool_decide as Hused; [done|].
  rewrite (cachedKeysUsed_no_hit _ _ Hinv' Hused).
  destruct (response o) as [|[papers|]]; simpl; [done| |done].
  by repeat (destruct (0 <? _)%nat; simpl).
Qed.

Lemma cache_is_never_hit_witness :
  (loopBody (session initialState [fiveEnv; fiveEnv]) SEARCH_TERMS
     (drawAi7 NetworkError) (mkLoop 0 [] [])).2 = false.
Proof.
  destruct (cache_is_never_hit initialState [fiveEnv; fiveEnv]) as [_ H].
  - unfold cachedKeysUsed, initialState. simpl. by rewrite dom_empty_L.
  - apply H.
Defined.

(** X8.  When the ids of the buffer are distinct, every cached key is used
    and no answer of the provider yields a batch that repeats an id within
    itself, the ids of the buffer are distinct after the session. *)
Theorem session_ids_distinct (st : AppState) (envs : list (nat -> Oracle)) :
  NoDup (map id (articles st)) ->
  cachedKeysUsed st ->
  (forall env n, env ∈ envs -> NoDup (map id (batchOf (env n)))) ->
  NoDup (map id (articles (session st envs))).
Proof.
  revert st. induction envs as [|env envs IH]; intros st Hnd Hinv Hbatches;
    simpl; [done|].
  apply IH.
  - destruct (loading st) eqn:Hload.
    { unfold fetchStep, fetchArticles. by rewrite Hload. }
    destruct (fetchStep_outcome st env Hload) as [|k cached Hk Hhit|n Hn Hk Hmiss Hne].
    + done.
    + by rewrite (cachedKeysUsed_no_hit st k Hinv Hk) in Hhit.
    + simpl. apply appendUnique_NoDup; [done|].
      apply Hbatches, list_elem_of_here.
  - by apply fetchStep_cachedKeysUsed.
  - intros env' n Hin. apply Hbatches. by apply list_elem_of_further.
Qed.

Lemma session_ids_distinct_witness :
  NoDup (map id (articles (session initialState [fiveEnv; fiveEnv]))).
Proof.
  apply (session_ids_distinct initialState [fiveEnv; fiveEnv]).
  - constructor.
  - unfold cachedKeysUsed, initialState. simpl. by rewrite dom_empty_L.
  - intros env n Hin.
    assert (env = fiveEnv) as ->.
    { apply elem_of_cons in Hin as [->|Hin]; [done|].
      apply elem_of_cons in Hin as [->|Hin]; [done|]. by apply elem_of_nil in Hin. }
    apply (bool_decide_unpack _). by vm_compute.
Defined.

(** ** Ranking and likes, further *)

Section LikesExtras.

Implicit Types (topics : list (string * Z)) (term : string) (prefs : UserPreferences).

Lemma setScore_keys topics term v :
  map fst (setScore topics term v) =
  if bool_decide (term ∈ map fst topics) then map fst topics
  else map fst topics ++ [term].
Proof.
  induction topics as [|e rest IH]; simpl; [done|].
  destruct (decide (e.1 = term)) as [He|He]; simpl.
  - rewrite bool_decide_eq_true_2; [by rewrite He|]. rewrite He. apply list_elem_of_here.
  - rewrite IH. case_bool_decide as Hin.
    + rewrite bool_decide_eq_true_2; [done|]. by apply list_elem_of_further.
    + rewrite bool_decide_eq_false_2; [done|].
      intros Hin'. apply elem_of_cons in Hin' as [->|Hin']; done.
Qed.

Lemma setScore_elem topics term v e :
  e ∈ setScore topics term v -> e = (term, v) \/ e ∈ topics.
Proof.
  induction topics as [|x rest IH]; simpl.
  - intros He. apply list_elem_of_singleton in He. by left.
  - destruct (decide (x.1 = term)).
    + intros He. apply elem_of_cons in He as [->|He]; [by left|].
      right. by apply list_elem_of_further.
    + intros He. apply elem_of_cons in He as [->|He].
      * right. apply list_elem_of_here.
      * destruct (IH He) as [->|Hin]; [by left|]. right. by apply list_elem_of_further.
Qed.

Lemma getScore_elem topics term v :
  getScore topics term = Some v -> (term, v) ∈ topics.
Proof.
  induction topics as [|[t s] rest IH]; simpl; [done|].
  destruct (decide (t = term)) as [->|Hne].
  - intros [= ->]. apply list_elem_of_here.
  - intros H. by apply list_elem_of_further, IH.
Qed.

Lemma likeTerm_wf text topics term :
  term ∈ SEARCH_TERMS ->
  NoDup (map fst topics) ->
  (forall e, e ∈ topics -> e.1 ∈ SEARCH_TERMS /\ 1 <= e.2) ->
  NoDup (map fst (likeTerm text topics term)) /\
  (forall e, e ∈ likeTerm text topics term -> e.1 ∈ SEARCH_TERMS /\ 1 <= e.2).
Proof.
  intros Hterm Hnd Hall. unfold likeTerm.
  destruct (includes text (toLowerCase term)); [|done]. split.
  - rewrite setScore_keys. case_bool_decide as Hin; [done|].
    apply NoDup_app. split; [done|]. split; [|apply NoDup_singleton].
    intros x Hx Hx'. apply list_elem_of_singleton in Hx'. by subst.
  - intros e He. apply setScore_elem in He as [->|He]; [|by apply Hall].
    split; [done|]. simpl.
    destruct (getScore topics term) as [v|] eqn:Hget; simpl; [|lia].
    apply getScore_elem, Hall in Hget as [_ Hv]. simpl in Hv.
    destruct (Z.eqb_spec v 0); lia.
Qed.

Lemma fold_likeTerm_wf text vocabulary topics :
  (forall t, t ∈ vocabulary -> t ∈ SEARCH_TERMS) ->
  NoDup (map fst topics) ->
  (forall e, e ∈ topics -> e.1 ∈ SEARCH_TERMS /\ 1 <= e.2) ->
  NoDup (map fst (fold_left (likeTerm text) vocabulary topics)) /\
  (forall e, e ∈ fold_left (likeTerm text) vocabulary topics ->
             e.1 ∈ SEARCH_TERMS /\ 1 <= e.2).
Proof.
  revert topics. induction vocabulary as [|t vocabulary IH];
    intros topics Hvoc Hnd Hall; simpl; [done|].
  destruct (likeTerm_wf text topics t) as [Hnd' Hall'];
    [apply Hvoc, list_elem_of_here|done|done|].
  apply IH; [|done|done]. intros t' Ht'. by apply Hvoc, list_elem_of_further.
Qed.

Lemma handleLike_wf prefs article :
  likesWellFormed prefs -> likesWellFormed (handleLike prefs article).
Proof.
  intros (Hliked & Hkeys & Hall). unfold handleLike, likesWellFormed.
  case_bool_decide as Hin; cbn [likedArticles likedTopics negb].
  - split; [|done]. by apply NoDup_filter.
  - split.
    + apply NoDup_app. split; [done|]. split; [|apply NoDup_singleton].
      intros x Hx Hx'. apply list_elem_of_singleton in Hx'. by subst.
    + by apply fold_likeTerm_wf.
Qed.

Lemma handleLike_savedArticles prefs article :
  savedArticles (handleLike prefs article) = savedArticles prefs.
Proof. done. Qed.

End LikesExtras.

(** X9.  Whatever the preferences are, the recommended terms end with the
    whole default vocabulary and have at most five terms before it, so they
    are between 15 and 20; each of them is a vocabulary term or a liked
    topic; and a draw below their length always gives one of them. *)
Theorem getRecommendedTerms_shape (prefs : UserPreferences) :
  SEARCH_TERMS `suffix_of` getRecommendedTerms prefs /\
  (15 <= length (getRecommendedTerms prefs) <= 20)%nat /\
  (forall t, t ∈ getRecommendedTerms prefs ->
             t ∈ SEARCH_TERMS \/ t ∈ map fst (likedTopics prefs)) /\
  (forall o, (randomTerm o < length (getRecommendedTerms prefs))%nat ->
             drawTerm (getRecommendedTerms prefs) o ∈ getRecommendedTerms prefs).
Proof.
  assert (Hshape : exists top,
            getRecommendedTerms prefs = top ++ SEARCH_TERMS /\
            (length top <= 5)%nat /\
            forall t, t ∈ top -> t ∈ map fst (likedTopics prefs)).
  { unfold getRecommendedTerms.
    destruct (0 <? length _)%nat.
    - eexists. split; [done|]. split.
      + rewrite length_map, length_take. lia.
      + intros t Ht. apply (list_elem_of_fmap fst) in Ht as (e & -> & He).
        apply (list_elem_of_fmap_2 fst).
        apply subseteq_take in He.
        by rewrite sortDesc_perm in He.
    - exists []. split; [done|]. split; [simpl; lia|].
      intros t Ht. by apply elem_of_nil in Ht. }
  destruct Hshape as (top & Heq & Hlen & Htop).
  split; [rewrite Heq; by apply suffix_app_r|].
  split; [rewrite Heq, length_app; change (length SEARCH_TERMS) with 15%nat; lia|].
  split.
  - intros t. rewrite Heq, elem_of_app. intros [Ht|Ht]; [right; by apply Htop|by left].
  - intros o Ho. unfold drawTerm.
    destruct (lookup_lt_is_Some_2 _ _ Ho) as [t Ht]. rewrite Ht. simpl.
    by apply list_elem_of_lookup_2 in Ht.
Qed.

Lemma getRecommendedTerms_shape_witness :
  drawTerm (getRecommendedTerms (mkPrefs [] [] [("ai", 3)])) (drawAi7 NetworkError)
    ∈ getRecommendedTerms (mkPrefs [] [] [("ai", 3)]).
Proof.
  destruct (getRecommendedTerms_shape (mkPrefs [] [] [("ai", 3)])) as (_ & _ & _ & H).
  apply H. vm_compute. lia.
Defined.

(** X10.  Likes keep the preferences well formed: after any sequence of
    toggles from preferences in which no id is liked twice, no topic is
    listed twice and every topic is a vocabulary term with a score of at
    least 1, the same holds, the saved ids are as before, and every
    recommended term is a term of the default vocabulary. *)
Theorem likes_keep_preferences_well_formed (prefs : UserPreferences)
  (liked : list Article) :
  likesWellFormed prefs ->
  likesWellFormed (fold_left handleLike liked prefs) /\
  savedArticles (fold_left handleLike liked prefs) = savedArticles prefs /\
  forall t, t ∈ getRecommendedTerms (fold_left handleLike liked prefs) ->
            t ∈ SEARCH_TERMS.
Proof.
  intros Hwf.
  assert (H : likesWellFormed (fold_left handleLike liked prefs) /\
              savedArticles (fold_left handleLike liked prefs) = savedArticles prefs).
  { revert prefs Hwf. induction liked as [|a liked IH]; intros prefs Hwf; simpl; [done|].
    destruct (IH (handleLike prefs a)) as [Hwf' Hsaved]; [by apply handleLike_wf|].
    by rewrite Hsaved. }
  destruct H as [Hwf' Hsaved]. split; [done|]. split; [done|].
  intros t Ht. destruct Hwf' as (_ & _ & Hall).
  unfold getRecommendedTerms in Ht.
  destruct (0 <? length _)%nat; [|done].
  apply elem_of_app in Ht as [Ht|Ht]; [|done].
  apply (list_elem_of_fmap fst) in Ht as (e & -> & He).
  apply subseteq_take in He. rewrite sortDesc_perm in He. by apply Hall.
Qed.

Lemma likes_keep_preferences_well_formed_witness :
  likesWellFormed
    (fold_left handleLike [articleOf "p1"; articleOf "p2"; articleOf "p1"]
       initialPreferences).
Proof.
  apply (likes_keep_preferences_well_formed initialPreferences).
  split; [constructor|]. split; [constructor|].
  intros e He. by apply elem_of_nil in He.
Defined.

(** ** Pagination, further *)

Section NavigationExtras.

Implicit Types (st : AppState) (loc : Locals) (p : AppState * Locals) (ev : event).

Lemma navigate_frame down up st :
  articles (navigate down up st) = articles st /\
  loading (navigate down up st) = loading st /\
  userPreferences (navigate down up st) = userPreferences st /\
  cache (navigate down up st) = cache st /\
  usedCacheKeys (navigate down up st) = usedCacheKeys st.
Proof.
  unfold navigate. destruct (_ && _); [done|]. by destruct (_ && _).
Qed.

Lemma handle_frame ev p :
  loading (handle ev p).1 = loading p.1 /\
  userPreferences (handle ev p).1 = userPreferences p.1 /\
  cache (handle ev p).1 = cache p.1 /\
  usedCacheKeys (handle ev p).1 = usedCacheKeys p.1 /\
  articles p.1 `prefix_of` articles (handle ev p).1 /\
  (windowEvent ev -> articles (handle ev p).1 = articles p.1).
Proof.
  destruct p as [st loc].
  destruct ev; simpl;
    rewrite ?goToNext_spec, ?goToPrevious_spec;
    try (destruct (isProcessing loc); simpl; [done|]);
    try (destruct (50 <? _); simpl; [|done]);
    try (destruct (navigate_frame (0 <? deltaY) (deltaY <? 0) st) as (-> & -> & -> & -> & ->));
    try (destruct (navigate_frame (String.eqb key "ArrowDown") (String.eqb key "ArrowUp") st)
           as (-> & -> & -> & -> & ->));
    try (destruct (navigate_frame (0 <? touchStartY loc - clientY)
                     (touchStartY loc - clientY <? 0) st) as (-> & -> & -> & -> & ->));
    try (destruct (navigate_frame true false st) as (-> & -> & -> & -> & ->));
    try (destruct (navigate_frame false true st) as (-> & -> & -> & -> & ->));
    try done.
  repeat split; try done. apply appendUnique_prefix.
Qed.

(** While the flag is set, a window event leaves the state and the flag. *)
Lemma step_blocked p ev :
  isProcessing p.2 = true -> windowEvent ev ->
  (step p ev).1 = p.1 /\ isProcessing (step p ev).2 = true.
Proof.
  destruct p as [st loc]. simpl. intros Hflag Hev.
  unfold step. destruct ev; try done; simpl; rewrite ?Hflag; simpl;
    rewrite bool_decide_eq_true_2 by done; by simpl.
Qed.

Lemma run_blocked p evs :
  isProcessing p.2 = true -> Forall windowEvent evs ->
  (run p evs).1 = p.1 /\ isProcessing (run p evs).2 = true.
Proof.
  intros Hflag Hevs. revert p Hflag.
  induction Hevs as [|ev evs Hev Hevs IH]; intros p Hflag; simpl; [done|].
  destruct (step_blocked p ev Hflag Hev) as [Hst Hflag'].
  destruct (IH (step p ev) Hflag') as [-> ->]. by split.
Qed.

Lemma run_clickNext n st loc :
  exists loc',
    run (st, loc) (replicate n ClickNext) =
    (setCurrentIndex
       (fun _ => Z.max (currentIndex st)
                   (Z.min (currentIndex st + Z.of_nat n)
                      (Z.of_nat (length (articles st)) - 1))) st, loc').
Proof.
  revert st loc. induction n as [|n IH]; intros st loc.
  - exists loc. simpl. unfold setCurrentIndex.
    replace (Z.max _ _) with (currentIndex st) by lia. by destruct st.
  - cbn [replicate run fold_left].
    fold (run (step (st, loc) ClickNext) (replicate n ClickNext)).
    destruct (step (st, loc) ClickNext) as [st1 loc1] eqn:Hstep.
    assert (Hst1 : st1 = goToNext st).
    { pose proof (step_fst (st, loc) ClickNext) as H. rewrite Hstep in H. exact H. }
    destruct (IH st1 loc1) as [loc' ->]. exists loc'. f_equal.
    subst st1. unfold goToNext, setCurrentIndex.
    destruct (Z.ltb_spec (currentIndex st) (Z.of_nat (length (articles st)) - 1));
      simpl; f_equal; lia.
Qed.

Lemma navigate_down up st :
  currentIndex st < Z.of_nat (length (articles st)) - 1 ->
  navigate true up st = setCurrentIndex (fun prev => prev + 1) st.
Proof.
  intros Hroom. unfold navigate. simpl.
  by destruct (Z.ltb_spec (currentIndex st) (Z.of_nat (length (articles st)) - 1));
    [|lia].
Qed.

(** A wheel event that moves the index is followed by a render that starts
    the scroll effect again. *)
Lemma step_wheel_moves st loc deltaY :
  isProcessing loc = false -> 0 < deltaY ->
  currentIndex st < Z.of_nat (length (articles st)) - 1 ->
  step (st, loc) (Wheel deltaY) =
    (setCurrentIndex (fun prev => prev + 1) st, freshLocals).
Proof.
  intros Hflag Hd Hroom. unfold step. cbn [handle handleWheel].
  rewrite Hflag. assert ((0 <? deltaY) = true) as -> by by apply Z.ltb_lt.
  rewrite navigate_down by done.
  rewrite bool_decide_eq_false_2; [done|]. simpl. lia.
Qed.

End NavigationExtras.

(** X11.  A button is disabled exactly when its handler would do nothing:
    with the index in range, the previous button is disabled if and only if
    [goToPrevious] leaves the state, and the next button if and only if
    [goToNext] does. *)
Theorem buttons_disabled_iff_noop (st : AppState) :
  indexInRange st ->
  (previousDisabled st = true <-> goToPrevious st = st) /\
  (nextDisabled st = true <-> goToNext st = st).
Proof.
  intros [Hlo Hhi]. unfold previousDisabled, nextDisabled, goToPrevious, goToNext.
  split.
  - destruct (Z.ltb_spec 0 (currentIndex st)) as [Hpos|Hnot];
      destruct (Z.eqb_spec (currentIndex st) 0) as [Hz|Hnz]; try lia.
    + split; [done|]. intros Heq.
      apply (f_equal currentIndex) in Heq. simpl in Heq. lia.
    + done.
  - destruct (Z.ltb_spec (currentIndex st) (Z.of_nat (length (articles st)) - 1));
      destruct (Z.leb_spec (Z.of_nat (length (articles st)) - 1) (currentIndex st));
      try lia.
    + split; [done|]. intros Heq.
      apply (f_equal currentIndex) in Heq. simpl in Heq. lia.
    + done.
Qed.

Lemma buttons_disabled_iff_noop_witness :
  goToPrevious (pageAt 0 false) = pageAt 0 false /\
  goToNext (pageAt 5 false) = pageAt 5 false.
Proof.
  destruct (buttons_disabled_iff_noop (pageAt 0 false)) as [[H1 _] _];
    [by vm_compute|].
  destruct (buttons_disabled_iff_noop (pageAt 5 false)) as [_ [H2 _]];
    [by vm_compute|].
  split; [by apply H1|by apply H2].
Defined.

(** X12.  The two buttons undo each other: with the index in range, a
    press of next that can move followed by a press of previous gives the
    state back, and so does previous followed by next. *)
Theorem next_and_previous_are_inverse (st : AppState) :
  indexInRange st ->
  (currentIndex st < Z.of_nat (length (articles st)) - 1 ->
   goToPrevious (goToNext st) = st) /\
  (0 < currentIndex st -> goToNext (goToPrevious st) = st).
Proof.
  intros [Hlo Hhi]. split; intros H.
  - unfold goToNext. destruct (Z.ltb_spec (currentIndex st) (Z.of_nat (length (articles st)) - 1)); [|lia].
    unfold goToPrevious, setCurrentIndex. simpl.
    destruct (Z.ltb_spec 0 (currentIndex st + 1)); [|lia]. simpl.
    replace (currentIndex st + 1 - 1) with (currentIndex st) by lia. by destruct st.
  - unfold goToPrevious. destruct (Z.ltb_spec 0 (currentIndex st)); [|lia].
    unfold goToNext, setCurrentIndex. simpl.
    destruct (Z.ltb_spec (currentIndex st - 1) (Z.of_nat (length (articles st)) - 1)); [|lia].
    simpl. replace (currentIndex st - 1 + 1) with (currentIndex st) by lia. by destruct st.
Qed.

Lemma next_and_previous_are_inverse_witness :
  goToPrevious (goToNext (pageAt 2 false)) = pageAt 2 false /\
  goToNext (goToPrevious (pageAt 2 false)) = pageAt 2 false.
Proof.
  destruct (next_and_previous_are_inverse (pageAt 2 false)) as [H1 H2];
    [by vm_compute|].
  split; [apply H1|apply H2]; by vm_compute.
Defined.

(** X13.  Pressing the next button n times moves the index n articles
    forward and stops at the last one: the index becomes the smaller of
    [currentIndex + n] and [articles.length - 1], or stays where it is when
    it is already there or beyond; the buffer is untouched. *)
Theorem presses_of_next_saturate (st : AppState) (loc : Locals) (n : nat) :
  currentIndex (run (st, loc) (replicate n ClickNext)).1 =
    Z.max (currentIndex st)
      (Z.min (currentIndex st + Z.of_nat n)
         (Z.of_nat (length (articles st)) - 1)) /\
  articles (run (st, loc) (replicate n ClickNext)).1 = articles st.
Proof. destruct (run_clickNext n st loc) as [loc' ->]. by split. Qed.

(** X14.  The cooldown: while [isProcessing] is set, wheel, key and touch
    events leave the whole state as it is and the flag set, however many
    of them come; only the timer (or a render that changes the index or the
    length of the buffer) clears the flag. *)
Theorem cooldown_blocks_window_events (p : AppState * Locals) (evs : list event) :
  isProcessing p.2 = true ->
  Forall windowEvent evs ->
  (run p evs).1 = p.1 /\ isProcessing (run p evs).2 = true.
Proof. apply run_blocked. Qed.

Lemma cooldown_blocks_window_events_witness :
  (run (pageAt 2 false, mkLocals true 0)
     [Wheel 120; KeyDown "ArrowDown"; TouchStart 400; TouchEnd 100]).1 =
  pageAt 2 false.
Proof.
  apply (cooldown_blocks_window_events (pageAt 2 false, mkLocals true 0)).
  - reflexivity.
  - repeat constructor.
Defined.

(** X15.  The cooldown covers only inputs that did not move the index.
    From a page that has just been rendered, a wheel event that moves the
    index, the render of that move and a second wheel event advance by
    two: the render starts the scroll effect again with a fresh flag.  Two
    wheel events with no render between them advance by one: the second
    runs in the handlers of the old render, whose flag is set.  A wheel
    event at the last article sets the flag, and the window events after
    it are ignored, across renders. *)
Theorem cooldown_ends_when_index_moves (st : AppState) (loc : Locals) (deltaY : Z) :
  isProcessing loc = false ->
  0 < deltaY ->
  (currentIndex st + 1 < Z.of_nat (length (articles st)) - 1 ->
   currentIndex (committed (pageRun (renderedPage st loc)
       [Dispatch (Wheel deltaY); Render; Dispatch (Wheel deltaY)])) =
     currentIndex st + 2 /\
   currentIndex (committed (pageRun (renderedPage st loc)
       [Dispatch (Wheel deltaY); Dispatch (Wheel deltaY)])) =
     currentIndex st + 1) /\
  (Z.of_nat (length (articles st)) - 1 <= currentIndex st ->
   forall es, Forall windowOrRender es ->
     committed (pageRun (renderedPage st loc) (Dispatch (Wheel deltaY) :: es)) = st).
Proof.
  intros Hflag Hd.
  assert (Hdown : (0 <? deltaY) = true) by by apply Z.ltb_lt.
  split.
  - intros Hroom.
    assert (Hfirst : dispatch (Wheel deltaY) (renderedPage st loc) =
              mkPage (setCurrentIndex (fun prev => prev + 1) st) st
                (mkLocals true (touchStartY loc))).
    { unfold renderedPage. cbn [dispatch effectLocals]. rewrite Hflag, Hdown.
      unfold navigateOn. cbn [rendered committed andb].
      destruct (Z.ltb_spec (currentIndex st) (Z.of_nat (length (articles st)) - 1));
        [done|lia]. }
    cbn [pageRun fold_left pageStep]. rewrite Hfirst. split.
    + unfold render. cbn [committed rendered effectLocals].
      rewrite bool_decide_eq_false_2 by (simpl; lia).
      cbn [dispatch effectLocals isProcessing freshLocals]. rewrite Hdown.
      unfold navigateOn. cbn [rendered committed andb].
      destruct (Z.ltb_spec (currentIndex (setCurrentIndex (fun prev => prev + 1) st))
                  (Z.of_nat (length (articles (setCurrentIndex (fun prev => prev + 1) st))) - 1))
        as [_|Hno]; [simpl; lia|]. simpl in Hno. lia.
    + by cbn [dispatch effectLocals isProcessing committed].
  - intros Hlast es Hes.
    assert (Hfirst : dispatch (Wheel deltaY) (renderedPage st loc) =
              mkPage st st (mkLocals true (touchStartY loc))).
    { unfold renderedPage. cbn [dispatch effectLocals]. rewrite Hflag, Hdown.
      unfold navigateOn. cbn [rendered committed andb].
      destruct (Z.ltb_spec (currentIndex st) (Z.of_nat (length (articles st)) - 1)); [lia|].
      by assert ((deltaY <? 0) = false) as -> by (apply Z.ltb_ge; lia). }
    cbn [pageRun fold_left pageStep]. rewrite Hfirst.
    destruct (pageRun_blocked es (mkPage st st (mkLocals true (touchStartY loc))))
      as [Hkept _]; [done..|].
    unfold pageRun in Hkept. by rewrite Hkept.
Qed.

Lemma cooldown_ends_when_index_moves_witness :
  (currentIndex (committed (pageRun (renderedPage (pageAt 1 false) freshLocals)
      [Dispatch (Wheel 120); Render; Dispatch (Wheel 120)])) = 3 /\
   currentIndex (committed (pageRun (renderedPage (pageAt 1 false) freshLocals)
      [Dispatch (Wheel 120); Dispatch (Wheel 120)])) = 2) /\
  committed (pageRun (renderedPage (pageAt 5 false) freshLocals)
    [Dispatch (Wheel 120); Render; Dispatch (KeyDown "ArrowUp"); Render;
     Dispatch (Wheel (-120))]) = pageAt 5 false.
Proof.
  destruct (cooldown_ends_when_index_moves (pageAt 1 false) freshLocals 120)
    as [H1 _]; [reflexivity|lia|].
  destruct (cooldown_ends_when_index_moves (pageAt 5 false) freshLocals 120)
    as [_ H2]; [reflexivity|lia|].
  split.
  - apply H1. by vm_compute.
  - apply H2; [by vm_compute|repeat constructor].
Defined.

(** X16.  No event of the page touches [loading], the preferences, the
    cache or the used-key set, and the buffer only grows at its end; along
    wheel, key and touch events the buffer is as it was. *)
Theorem events_leave_the_fetch_state (p : AppState * Locals) (evs : list event) :
  loading (run p evs).1 = loading p.1 /\
  userPreferences (run p evs).1 = userPreferences p.1 /\
  cache (run p evs).1 = cache p.1 /\
  usedCacheKeys (run p evs).1 = usedCacheKeys p.1 /\
  articles p.1 `prefix_of` articles (run p evs).1 /\
  (Forall windowEvent evs -> articles (run p evs).1 = articles p.1).
Proof.
  revert p. induction evs as [|ev evs IH]; intros p; simpl; [done|].
  destruct (IH (step p ev)) as (Hl & Hp & Hc & Hu & Ha & Hw).
  rewrite step_fst in Hl, Hp, Hc, Hu, Ha, Hw.
  destruct (handle_frame ev p) as (Hl' & Hp' & Hc' & Hu' & Ha' & Hw').
  repeat split; try congruence.
  - by etrans.
  - intros Hevs. apply Forall_cons in Hevs as [Hev Hevs].
    rewrite Hw by done. by apply Hw'.
Qed.

Lemma events_leave_the_fetch_state_witness :
  articles (run (pageAt 1 false, freshLocals) [Wheel 120; KeyDown "ArrowUp"]).1
    = sixArticles.
Proof.
  destruct (events_leave_the_fetch_state (pageAt 1 false, freshLocals)
              [Wheel 120; KeyDown "ArrowUp"]) as (_ & _ & _ & _ & _ & H).
  apply H. repeat constructor.
Defined.

(** ** Cache keys *)

Section CacheKey.

Lemma pretty_N_char_digit x : isDigit (pretty_N_char x) = true.
Proof. unfold pretty_N_char. by repeat case_match. Qed.

Lemma pretty_N_go_digits x s :
  allDigits s = true -> allDigits (pretty_N_go x s) = true.
Proof.
  revert s. induction (N.lt_wf_0 x) as [x _ IH]; intros s Hs.
  assert (x = 0 \/ 0 < x)%N as [->|Hpos] by lia.
  - by rewrite pretty_N_go_0.
  - rewrite pretty_N_go_step by done. apply IH; [by apply N.div_lt|].
    simpl. by rewrite pretty_N_char_digit.
Qed.

Lemma pretty_nat_digits (n : nat) : allDigits (pretty n) = true.
Proof.
  unfold pretty, pretty_nat, pretty, pretty_N.
  case_decide; [done|]. by apply pretty_N_go_digits.
Qed.

(** A string of digits has no dash in it. *)
Lemma allDigits_no_dash d a b : allDigits d = true -> d ≠ a +:+ "-" +:+ b.
Proof.
  revert d. induction a as [|c a IH]; intros d Hd Heq; subst d; simpl in Hd.
  - done.
  - apply andb_true_iff in Hd as [_ Hd]. by apply (IH _ Hd).
Qed.

Lemma key_split_inj t t' d d' :
  allDigits d = true -> allDigits d' = true ->
  t +:+ "-" +:+ d = t' +:+ "-" +:+ d' -> t = t' /\ d = d'.
Proof.
  intros Hd Hd'. revert t'. induction t as [|c t IH]; intros [|c' t'] Heq; simpl in Heq.
  - by injection Heq.
  - injection Heq as <- Hrest. by destruct (allDigits_no_dash d t' d' Hd).
  - injection Heq as -> Hrest. symmetry in Hrest.
    by destruct (allDigits_no_dash d' t d Hd').
  - injection Heq as <- Hrest. destruct (IH t' Hrest) as [-> ->]. done.
Qed.

End CacheKey.

(** X17.  Two queries have the same cache key only when they have the
    same term and the same offset, also when a term has a dash in it: the
    key of one query never stands for another. *)
Theorem cacheKey_inj (term term' : string) (offset offset' : nat) :
  cacheKey term offset = cacheKey term' offset' ->
  term = term' /\ offset = offset'.
Proof.
  unfold cacheKey. intros Heq.
  apply key_split_inj in Heq as [-> Hoff]; [|apply pretty_nat_digits..].
  split; [done|]. by apply (inj pretty).
Qed.

Lemma cacheKey_inj_witness : "ai" = "ai" /\ 7%nat = 7%nat.
Proof. apply (cacheKey_inj "ai" "ai" 7 7). reflexivity. Defined.

(** ** JSON.stringify and JSON.parse *)

Section Strings.

Implicit Types (s t r : string) (c : ascii).

Lemma str_app_cons c s t : String c s +:+ t = String c (s +:+ t).
Proof. done. Qed.

Lemma str_app_nil_l t : "" +:+ t = t.
Proof. done. Qed.

Lemma str_app_nil_r s : s +:+ "" = s.
Proof. induction s as [|c s IH]; [done|]. by rewrite str_app_cons, IH. Qed.

Lemma str_app_assoc s t r : (s +:+ t) +:+ r = s +:+ (t +:+ r).
Proof. induction s as [|c s IH]; [done|]. by rewrite !str_app_cons, IH. Qed.

Lemma str_length_app s t :
  String.length (s +:+ t) = (String.length s + String.length t)%nat.
Proof. induction s as [|c s IH]; [done|]. rewrite str_app_cons. simpl. by rewrite IH. Qed.

Lemma str_length_cons c s : String.length (String c s) = S (String.length s).
Proof. done. Qed.

Lemma str_length_nil : String.length "" = 0%nat.
Proof. done. Qed.

End Strings.

Ltac push_app := repeat first [rewrite str_app_assoc | rewrite str_app_cons | rewrite str_app_nil_l].

Ltac lens := rewrite ?str_length_app, ?str_length_cons, ?str_length_nil in *.

Section StringLiterals.

(** The parser reads the escape of a character as one step of a string
    body. *)
Lemma parseStringBody_escapeChar c tail :
  parseStringBody (escapeChar c +:+ tail) =
  match parseStringBody tail with
  | Some (b, rest) => Some (escapeChar c +:+ b, rest)
  | None => None
  end.
Proof.
  destruct (Nat.ltb_spec (nat_of_ascii c) 32) as [Hlow|Hhigh].
  - rewrite <- (ascii_nat_embedding c).
    remember (nat_of_ascii c) as n eqn:Hn. clear Hn.
    do 32 (destruct n as [|n];
           [vm_compute escapeChar; push_app; simpl;
            destruct (parseStringBody tail) as [[b rest]|]; reflexivity|]).
    lia.
  - unfold escapeChar.
    destruct (Ascii.eqb_spec c dquote) as [->|Hq].
    { push_app. simpl. by destruct (parseStringBody tail) as [[b rest]|]. }
    destruct (Ascii.eqb_spec c "\") as [->|Hb].
    { push_app. simpl. by destruct (parseStringBody tail) as [[b rest]|]. }
    assert (Hne : forall k, (k < 32)%nat -> (nat_of_ascii c =? k)%nat = false).
    { intros k Hk. apply Nat.eqb_neq. lia. }
    rewrite !Hne by lia.
    destruct (Nat.ltb_spec (nat_of_ascii c) 32) as [|_]; [lia|].
    push_app. simpl.
    destruct (Ascii.eqb_spec c dquote) as [|_]; [done|].
    destruct (Ascii.eqb_spec c "\") as [|_]; [done|].
    destruct (Nat.ltb_spec (nat_of_ascii c) 32) as [|_]; [lia|].
    by destruct (parseStringBody tail) as [[b rest]|].
Qed.

Lemma parseStringBody_escapeString s rest :
  parseStringBody (escapeString s +:+ String dquote rest) =
    Some (escapeString s, rest).
Proof.
  induction s as [|c s IH]; simpl.
  - by push_app.
  - rewrite str_app_assoc, parseStringBody_escapeChar, IH. done.
Qed.

End StringLiterals.

Section Numbers.

Implicit Types (s t r ds rest : string) (c : ascii).

Lemma digit_cases c :
  isDigit c = true ->
  c = "0"%char \/ c = "1"%char \/ c = "2"%char \/ c = "3"%char \/ c = "4"%char \/
  c = "5"%char \/ c = "6"%char \/ c = "7"%char \/ c = "8"%char \/ c = "9"%char.
Proof.
  destruct c as [[] [] [] [] [] [] [] []]; vm_compute; intros H;
    first [discriminate H | tauto].
Qed.

Lemma allDigits_app ds ds' :
  allDigits (ds +:+ ds') = allDigits ds && allDigits ds'.
Proof.
  induction ds as [|c ds IH]; [done|]. rewrite str_app_cons. simpl.
  by rewrite IH, andb_assoc.
Qed.

(** The digits of a positive number: a first digit that is not 0, and
    more digits. *)
Lemma pretty_N_go_shape (x : N) :
  (0 < x)%N ->
  exists c ds, isDigit c = true /\ c ≠ "0"%char /\ allDigits ds = true /\
               forall s, pretty_N_go x s = String c (ds +:+ s).
Proof.
  induction (N.lt_wf_0 x) as [x _ IH]. intros Hpos.
  assert (x < 10 \/ 10 <= x)%N as [Hsmall|Hbig] by lia.
  - exists (pretty_N_char x), "".
    split; [apply pretty_N_char_digit|]. split.
    { assert (x = 1 \/ x = 2 \/ x = 3 \/ x = 4 \/ x = 5 \/ x = 6 \/ x = 7 \/
              x = 8 \/ x = 9)%N as Hx by lia.
      destruct Hx as [->|[->|[->|[->|[->|[->|[->|[->| ->]]]]]]]]; done. }
    split; [done|]. intros s. rewrite pretty_N_go_step by done.
    rewrite (N.div_small x 10), (N.mod_small x 10) by done.
    by rewrite pretty_N_go_0.
  - destruct (IH (x `div` 10)%N) as (c & ds & Hc & Hc0 & Hds & Heq).
    { by apply N.div_lt. }
    { apply N.div_str_pos. lia. }
    exists c, (ds +:+ String (pretty_N_char (x `mod` 10)) "").
    split; [done|]. split; [done|]. split.
    { rewrite allDigits_app, Hds. simpl. by rewrite pretty_N_char_digit. }
    intros s. rewrite pretty_N_go_step by done. rewrite Heq.
    by rewrite str_app_assoc, str_app_cons, str_app_nil_l.
Qed.

(** The three shapes of a printed integer. *)
Lemma pretty_Z_shape (z : Z) :
  pretty z = "0" \/
  (exists c ds, isDigit c = true /\ c ≠ "0"%char /\ allDigits ds = true /\
                (pretty z = String c ds \/ pretty z = String "-" (String c ds))).
Proof.
  destruct z as [|p|p]; [by left|right..].
  - destruct (pretty_N_go_shape (N.pos p)) as (c & ds & Hc & Hc0 & Hds & Heq); [lia|].
    exists c, ds. repeat split; try done. left.
    unfold pretty, pretty_Z, pretty, pretty_positive, pretty, pretty_N.
    rewrite decide_False by done. by rewrite Heq, str_app_nil_r.
  - destruct (pretty_N_go_shape (N.pos p)) as (c & ds & Hc & Hc0 & Hds & Heq); [lia|].
    exists c, ds. repeat split; try done. right.
    unfold pretty, pretty_Z, pretty, pretty_positive, pretty, pretty_N.
    rewrite decide_False by done. by rewrite Heq, str_app_nil_r.
Qed.

Lemma delimited_head rest :
  delimited rest ->
  match rest with
  | EmptyString => True
  | String c _ =>
      isDigit c = false /\ isWs c = false /\ Ascii.eqb c "." = false /\
      Ascii.eqb c "e" = false /\ Ascii.eqb c "E" = false
  end.
Proof.
  destruct rest as [|c rest]; [done|]. simpl.
  by intros [->|[->| ->]].
Qed.

Lemma spanDigits_app ds rest :
  allDigits ds = true -> delimited rest ->
  spanDigits (ds +:+ rest) = (ds, rest).
Proof.
  intros Hds Hrest. induction ds as [|c ds IH].
  - rewrite str_app_nil_l. apply delimited_head in Hrest.
    destruct rest as [|c rest]; [done|]. simpl.
    by destruct Hrest as (-> & _).
  - simpl in Hds. apply andb_true_iff in Hds as [Hc Hds].
    rewrite str_app_cons. simpl. by rewrite Hc, IH.
Qed.

Lemma parseFrac_delimited rest : delimited rest -> parseFrac rest = Some ("", rest).
Proof.
  intros Hrest. apply delimited_head in Hrest.
  destruct rest as [|c rest]; [done|]. simpl.
  by destruct Hrest as (_ & _ & -> & _).
Qed.

Lemma parseExp_delimited rest : delimited rest -> parseExp rest = Some ("", rest).
Proof.
  intros Hrest. apply delimited_head in Hrest.
  destruct rest as [|c rest]; [done|]. simpl.
  by destruct Hrest as (_ & _ & _ & -> & ->).
Qed.

Lemma parseInt_digits c ds rest :
  isDigit c = true -> c ≠ "0"%char -> allDigits ds = true -> delimited rest ->
  parseInt (String c (ds +:+ rest)) = Some (String c ds, rest).
Proof.
  intros Hc Hc0 Hds Hrest. unfold parseInt.
  destruct (Ascii.eqb_spec c "0"); [done|]. rewrite Hc.
  change (String c (ds +:+ rest)) with (String c ds +:+ rest).
  rewrite spanDigits_app; [done| |done]. simpl. by rewrite Hc, Hds.
Qed.

(** The parser reads a printed integer as one number, up to what delimits
    it. *)
Lemma parseNumber_pretty (z : Z) rest :
  delimited rest -> parseNumber (pretty z +:+ rest) = Some (pretty z, rest).
Proof.
  intros Hrest.
  destruct (pretty_Z_shape z) as [->|(c & ds & Hc & Hc0 & Hds & [-> | ->])].
  - unfold parseNumber. rewrite str_app_cons, str_app_nil_l. simpl.
    rewrite parseFrac_delimited by done. simpl.
    by rewrite parseExp_delimited.
  - unfold parseNumber. rewrite str_app_cons.
    assert (Ascii.eqb c "-" = false) as ->.
    { destruct (digit_cases c Hc) as [->|[->|[->|[->|[->|[->|[->|[->|[->| ->]]]]]]]]];
        done. }
    cbv beta iota. rewrite (parseInt_digits c ds rest Hc Hc0 Hds Hrest). simpl.
    rewrite parseFrac_delimited by done. simpl.
    rewrite parseExp_delimited by done. simpl.
    by rewrite !str_app_nil_r.
  - unfold parseNumber. rewrite !str_app_cons.
    change (Ascii.eqb "-" "-") with true. cbv beta iota.
    rewrite (parseInt_digits c ds rest Hc Hc0 Hds Hrest). simpl.
    rewrite parseFrac_delimited by done. simpl.
    rewrite parseExp_delimited by done. simpl.
    by rewrite !str_app_nil_r.
Qed.

End Numbers.

Section RoundTrip.

Implicit Types (s t r rest : string) (c : ascii) (v : json) (fuel : nat).

Lemma digit_opening c : isDigit c = true -> opening c.
Proof.
  intros Hc.
  destruct (digit_cases c Hc) as [->|[->|[->|[->|[->|[->|[->|[->|[->| ->]]]]]]]]];
    by repeat split.
Qed.

Lemma print_head v :
  encoded v -> exists c tail, JSON_print v = String c tail /\ opening c.
Proof.
  intros [|[]|z|s|items _|members _]; simpl.
  - by exists "n"%char, "ull".
  - by exists "t"%char, "rue".
  - by exists "f"%char, "alse".
  - destruct (pretty_Z_shape z) as [->|(c & ds & Hc & _ & _ & [-> | ->])].
    + by exists "0"%char, "".
    + exists c, ds. split; [done|]. by apply digit_opening.
    + by exists "-"%char, (String c ds).
  - unfold quoted. by eexists dquote, _.
  - rewrite str_app_cons. by eexists "["%char, _.
  - rewrite str_app_cons. by eexists "{"%char, _.
Qed.

Lemma skipWs_opening c r : opening c -> skipWs (String c r) = String c r.
Proof. intros (Hc & _). simpl. by rewrite Hc. Qed.

Lemma skipWs_delimiter c r :
  c = ","%char \/ c = "]"%char \/ c = "}"%char \/ c = ":"%char ->
  skipWs (String c r) = String c r.
Proof. by intros [->|[->|[->| ->]]]. Qed.

Lemma parseValue_number fuel (z : Z) rest :
  delimited rest ->
  parseValue (S fuel) (pretty z +:+ rest) = Parsed (JNumber (pretty z)) rest.
Proof.
  intros Hrest.
  pose proof (parseNumber_pretty z rest Hrest) as Hnum.
  destruct (pretty_Z_shape z) as [Hz|(c & ds & Hc & _ & _ & [Hz|Hz])];
    rewrite Hz in *; rewrite ?str_app_cons in *.
  - change (parseValue (S fuel) (String "0" ("" +:+ rest)))
      with (match parseNumber (String "0" ("" +:+ rest)) with
            | Some (lit, rest') => Parsed (JNumber lit) rest'
            | None => Invalid
            end).
    by rewrite Hnum.
  - assert (Hhead : parseValue (S fuel) (String c (ds +:+ rest)) =
                    match parseNumber (String c (ds +:+ rest)) with
                    | Some (lit, rest') => Parsed (JNumber lit) rest'
                    | None => @Invalid json
                    end).
    { destruct (digit_cases c Hc) as [->|[->|[->|[->|[->|[->|[->|[->|[->| ->]]]]]]]]];
        reflexivity. }
    by rewrite Hhead, Hnum.
  - change (parseValue (S fuel) (String "-" (String c (ds +:+ rest))))
      with (match parseNumber (String "-" (String c (ds +:+ rest))) with
            | Some (lit, rest') => Parsed (JNumber lit) rest'
            | None => Invalid
            end).
    by rewrite Hnum.
Qed.

Lemma parseValue_string fuel s rest :
  parseValue (S fuel) (quoted (escapeString s) +:+ rest) =
    Parsed (JString (escapeString s)) rest.
Proof.
  unfold quoted. rewrite str_app_cons, str_app_assoc, str_app_cons, str_app_nil_l.
  change (parseValue (S fuel) (String dquote ?r))
    with (match parseStringBody r with
          | Some (b, rest') => Parsed (JString b) rest'
          | None => Invalid
          end).
  by rewrite parseStringBody_escapeString.
Qed.

Lemma depth_array items n :
  (depth (JArray items) <= S n)%nat -> Forall (fun x => (depth x <= n)%nat) items.
Proof.
  simpl. intros H. apply le_S_n in H.
  induction items as [|x items IH]; [constructor|]. simpl in H.
  constructor; [lia|]. apply IH. lia.
Qed.

Lemma depth_object (members : list (string * json)) n :
  (depth (JObject members) <= S n)%nat ->
  Forall (fun kv => (depth kv.2 <= n)%nat) members.
Proof.
  simpl. intros H. apply le_S_n in H.
  induction members as [|x members IH]; [constructor|]. simpl in H.
  constructor; [lia|]. apply IH. lia.
Qed.

Section Inner.

Variable n : nat.
Hypothesis IHv : forall v, (depth v <= n)%nat -> encoded v ->
  forall rest fuel, delimited rest ->
    (2 * String.length (JSON_print v +:+ rest) + 1 <= fuel)%nat ->
    parseValue fuel (JSON_print v +:+ rest) = Parsed v rest.

Lemma parseElements_print (items : list json) rest fuel :
  items ≠ [] ->
  Forall (fun x => (depth x <= n)%nat) items -> Forall encoded items ->
  (2 * String.length (joinWith "," (map JSON_print items) +:+ "]" +:+ rest) + 2
     <= fuel)%nat ->
  parseElements fuel (joinWith "," (map JSON_print items) +:+ "]" +:+ rest) =
    Parsed items rest.
Proof.
  intros Hne Hdepth Henc. revert fuel.
  induction items as [|v items IH]; [done|]. intros fuel Hfuel.
  apply Forall_cons in Hdepth as [Hdv Hdepth].
  apply Forall_cons in Henc as [Hev Henc].
  destruct fuel as [|fuel]; [lia|].
  destruct (print_head v Hev) as (c & tail & Hprint & Hopen).
  destruct items as [|v' items].
  - cbn [map joinWith] in *.
    change (parseElements (S fuel) ?s)
      with (match parseValue fuel s with
            | Parsed v0 r =>
                match skipWs r with
                | String c0 r' =>
                    if Ascii.eqb c0 "," then parsedMap (cons v0) (parseElements fuel r')
                    else if Ascii.eqb c0 "]" then Parsed [v0] r'
                    else Invalid
                | EmptyString => Invalid
                end
            | Invalid => Invalid
            | OutOfFuel => OutOfFuel
            end).
    rewrite IHv; [|done|done|simpl; tauto|lia].
    by rewrite str_app_cons, str_app_nil_l.
  - cbn [map joinWith] in *. clear Hne.
    set (more := joinWith "," (JSON_print v' :: map JSON_print items)) in *.
    rewrite !str_app_assoc in *.
    change (parseElements (S fuel) ?s)
      with (match parseValue fuel s with
            | Parsed v0 r =>
                match skipWs r with
                | String c0 r' =>
                    if Ascii.eqb c0 "," then parsedMap (cons v0) (parseElements fuel r')
                    else if Ascii.eqb c0 "]" then Parsed [v0] r'
                    else Invalid
                | EmptyString => Invalid
                end
            | Invalid => Invalid
            | OutOfFuel => OutOfFuel
            end).
    rewrite IHv; [|done|done|rewrite str_app_cons; simpl; tauto|lia].
    rewrite str_app_cons, str_app_nil_l.
    change (skipWs (String "," ?r)) with (String "," r). cbv beta iota.
    change (Ascii.eqb "," ",") with true. cbv beta iota.
    rewrite IH; [done|done|done|done|].
    rewrite Hprint in Hfuel. lens. lia.
Qed.

Lemma parseMembers_print (members : list (string * json)) rest fuel :
  members ≠ [] ->
  Forall (fun kv => (depth kv.2 <= n)%nat) members ->
  Forall (fun kv => (exists k, kv.1 = escapeString k) /\ encoded kv.2) members ->
  (2 * String.length
         (joinWith "," (map (fun kv => quoted kv.1 +:+ ":" +:+ JSON_print kv.2) members)
          +:+ "}" +:+ rest) + 2 <= fuel)%nat ->
  parseMembers fuel
    (joinWith "," (map (fun kv => quoted kv.1 +:+ ":" +:+ JSON_print kv.2) members)
     +:+ "}" +:+ rest) = Parsed members rest.
Proof.
  intros Hne Hdepth Henc. revert fuel.
  induction members as [|[key v] members IH]; [done|]. intros fuel Hfuel.
  apply Forall_cons in Hdepth as [Hdv Hdepth].
  apply Forall_cons in Henc as [[[k Hk] Hev] Henc]. simpl in Hdv, Hk, Hev. subst key.
  destruct fuel as [|fuel]; [lia|].
  assert (Hstep : forall tail,
    parseMembers (S fuel)
      ((quoted (escapeString k) +:+ ":" +:+ JSON_print v) +:+ tail) =
    match parseValue fuel (JSON_print v +:+ tail) with
    | Parsed v0 r3 =>
        match skipWs r3 with
        | String c3 r4 =>
            if Ascii.eqb c3 "," then
              parsedMap (cons (escapeString k, v0)) (parseMembers fuel r4)
            else if Ascii.eqb c3 "}" then Parsed [(escapeString k, v0)] r4
            else Invalid
        | EmptyString => Invalid
        end
    | Invalid => Invalid
    | OutOfFuel => OutOfFuel
    end).
  { intros tail. unfold quoted.
    rewrite !str_app_cons, !str_app_assoc, !str_app_cons, !str_app_nil_l.
    change (parseMembers (S fuel) (String dquote ?r))
      with (match parseStringBody r with
            | Some (k0, r1) =>
                match skipWs r1 with
                | String c1 r2 =>
                    if Ascii.eqb c1 ":" then
                      match parseValue fuel r2 with
                      | Parsed v0 r3 =>
                          match skipWs r3 with
                          | String c3 r4 =>
                              if Ascii.eqb c3 "," then
                                parsedMap (cons (k0, v0)) (parseMembers fuel r4)
                              else if Ascii.eqb c3 "}" then Parsed [(k0, v0)] r4
                              else Invalid
                          | EmptyString => Invalid
                          end
                      | Invalid => Invalid
                      | OutOfFuel => OutOfFuel
                      end
                    else Invalid
                | EmptyString => Invalid
                end
            | None => Invalid
            end).
    by rewrite parseStringBody_escapeString. }
  destruct members as [|kv' members].
  - cbn [map joinWith fst snd] in *.
    rewrite Hstep.
    rewrite IHv; [|done|done|simpl; tauto|].
    + by rewrite str_app_cons, str_app_nil_l.
    + unfold quoted in Hfuel. lens. lia.
  - cbn [map joinWith fst snd] in *. clear Hne.
    set (more := joinWith ","
                   ((quoted kv'.1 +:+ ":" +:+ JSON_print kv'.2) ::
                    map (fun kv => quoted kv.1 +:+ ":" +:+ JSON_print kv.2) members)) in *.
    rewrite (str_app_assoc _ ("," +:+ more)) in *.
    rewrite Hstep.
    rewrite IHv; [|done|done|rewrite str_app_assoc, str_app_cons; simpl; tauto|].
    + rewrite str_app_assoc, str_app_cons, str_app_nil_l.
      change (skipWs (String "," ?r)) with (String "," r). cbv beta iota.
      change (Ascii.eqb "," ",") with true. cbv beta iota.
      rewrite IH; [done|done|done|done|].
      change (2 * String.length (more +:+ "}" +:+ rest) + 2 <= fuel)%nat.
      unfold quoted in Hfuel. lens. lia.
    + unfold quoted in Hfuel. lens. lia.
Qed.

End Inner.

(** The parser reads the text of a tree back as the tree. *)
Lemma parseValue_print n :
  forall v, (depth v <= n)%nat -> encoded v ->
  forall rest fuel, delimited rest ->
    (2 * String.length (JSON_print v +:+ rest) + 1 <= fuel)%nat ->
    parseValue fuel (JSON_print v +:+ rest) = Parsed v rest.
Proof.
  induction n as [n IHn] using lt_wf_ind.
  intros v Hdepth Henc rest fuel Hrest Hfuel.
  destruct fuel as [|fuel]; [lia|].
  destruct Henc as [|[]|z|s|items Hitems|members Hmembers].
  - reflexivity.
  - reflexivity.
  - reflexivity.
  - by apply parseValue_number.
  - apply parseValue_string.
  - destruct n as [|n]; [simpl in Hdepth; lia|].
    apply depth_array in Hdepth.
    destruct items as [|v items].
    + reflexivity.
    + destruct (print_head v) as (c & tail & Hprint & Hopen);
        [by apply Forall_cons in Hitems as [? _]|].
      assert (Hhead : exists tail',
        joinWith "," (map JSON_print (v :: items)) = String c tail').
      { cbn [map joinWith]. destruct (map JSON_print items); rewrite Hprint;
          [by eexists|]. rewrite str_app_cons. by eexists. }
      destruct Hhead as [tail' Hjoin].
      replace (JSON_print (JArray (v :: items)) +:+ rest)
        with (String "[" (joinWith "," (map JSON_print (v :: items)) +:+ "]" +:+ rest))
        by (cbn [JSON_print]; by rewrite !str_app_assoc).
      assert (Hdispatch :
        parseValue (S fuel)
          (String "[" (joinWith "," (map JSON_print (v :: items)) +:+ "]" +:+ rest)) =
        parsedMap JArray
          (parseElements fuel
             (joinWith "," (map JSON_print (v :: items)) +:+ "]" +:+ rest))).
      { rewrite Hjoin, str_app_cons.
        change (parseValue (S fuel) (String "[" ?r))
          with (match skipWs r with
                | String c' r' =>
                    if Ascii.eqb c' "]" then Parsed (JArray []) r'
                    else parsedMap JArray (parseElements fuel r)
                | EmptyString => Invalid
                end).
        rewrite (skipWs_opening c _ Hopen).
        destruct Hopen as (_ & Hc & _).
        by destruct (Ascii.eqb_spec c "]"). }
      rewrite Hdispatch.
      rewrite (parseElements_print n); [done| |done|done|done|].
      * apply (IHn n). lia.
      * cbn [JSON_print] in Hfuel. lens. lia.
  - destruct n as [|n]; [simpl in Hdepth; lia|].
    apply depth_object in Hdepth.
    destruct members as [|kv members].
    + reflexivity.
    + replace (JSON_print (JObject (kv :: members)) +:+ rest)
        with (String "{"
                (joinWith "," (map (fun kv => quoted kv.1 +:+ ":" +:+ JSON_print kv.2)
                                 (kv :: members)) +:+ "}" +:+ rest))
        by (cbn [JSON_print]; by rewrite !str_app_assoc).
      assert (Hjoin : exists tail',
        joinWith "," (map (fun kv => quoted kv.1 +:+ ":" +:+ JSON_print kv.2)
                       (kv :: members)) = String dquote tail').
      { cbn [map joinWith]. unfold quoted at 1.
        destruct (map _ members); rewrite !str_app_cons; by eexists. }
      destruct Hjoin as [tail' Hjoin].
      assert (Hdispatch :
        parseValue (S fuel)
          (String "{"
             (joinWith "," (map (fun kv => quoted kv.1 +:+ ":" +:+ JSON_print kv.2)
                              (kv :: members)) +:+ "}" +:+ rest)) =
        parsedMap JObject
          (parseMembers fuel
             (joinWith "," (map (fun kv => quoted kv.1 +:+ ":" +:+ JSON_print kv.2)
                              (kv :: members)) +:+ "}" +:+ rest))).
      { rewrite Hjoin, str_app_cons. reflexivity. }
      rewrite Hdispatch.
      rewrite (parseMembers_print n); [done| |done|done|done|].
      * apply (IHn n). lia.
      * cbn [JSON_print] in Hfuel. lens. lia.
Qed.

(** [JSON.parse(JSON.stringify(v))] is [v]. *)
Lemma JSON_parse_print v : encoded v -> JSON_parse (JSON_print v) = Some v.
Proof.
  intros Henc. unfold JSON_parse, parseFuel.
  rewrite <- (str_app_nil_r (JSON_print v)) at 2.
  rewrite (parseValue_print (depth v)); [done|lia|done|done|].
  rewrite str_app_nil_r. lia.
Qed.

Lemma stringValue_encoded s : encoded (stringValue s).
Proof. constructor. Qed.

Lemma authorValue_encoded (a : Author) : encoded (authorValue a).
Proof.
  apply EncObject. apply Forall_cons_2; [|apply Forall_nil_2].
  split; [by exists "name"|apply EncString].
Qed.

Lemma articleValue_encoded (a : Article) : encoded (articleValue a).
Proof.
  apply EncObject.
  apply Forall_cons_2; [split; [by exists "id"|apply EncString]|].
  apply Forall_cons_2; [split; [by exists "title"|apply EncString]|].
  apply Forall_cons_2.
  { split; [by exists "authors"|]. apply EncArray, Forall_fmap, Forall_forall.
    intros x _. apply authorValue_encoded. }
  apply Forall_cons_2; [split; [by exists "abstract"|apply EncString]|].
  apply Forall_cons_2; [split; [by exists "url"|apply EncString]|].
  apply Forall_cons_2; [split; [by exists "year"|apply EncNumber]|].
  apply Forall_cons_2; [|apply Forall_nil_2].
  split; [by exists "source"|].
  destruct (source a); [apply (EncString "semantic")|apply (EncString "arxiv")].
Qed.

Lemma preferencesValue_encoded (prefs : UserPreferences) :
  encoded (preferencesValue prefs).
Proof.
  apply EncObject.
  apply Forall_cons_2.
  { split; [by exists "likedArticles"|]. apply EncArray, Forall_fmap, Forall_forall.
    intros x _. apply EncString. }
  apply Forall_cons_2.
  { split; [by exists "savedArticles"|]. apply EncArray, Forall_fmap, Forall_forall.
    intros x _. apply EncString. }
  apply Forall_cons_2; [|apply Forall_nil_2].
  split; [by exists "likedTopics"|]. apply EncObject, Forall_fmap, Forall_forall.
  intros [t s] _. split; [by exists t|apply EncNumber].
Qed.

Lemma JSON_print_nonempty v : encoded v -> JSON_print v ≠ "".
Proof. intros Hv. by destruct (print_head v Hv) as (c & tail & -> & _). Qed.

End RoundTrip.

(** ** Writes to storage and what reads them back *)

Section StorageExtras.

Implicit Types (storage : gmap string string) (prefs : UserPreferences)
  (article : Article) (savedId : string).

Lemma savedKey_inj savedId savedId' :
  "scitok-saved-" +:+ savedId = "scitok-saved-" +:+ savedId' -> savedId = savedId'.
Proof. apply (inj (String.app "scitok-saved-")). Qed.

Lemma savedKey_not_preferences savedId :
  "scitok-saved-" +:+ savedId ≠ "scitok-preferences".
Proof. intros H. vm_compute in H. discriminate H. Qed.

Lemma loadPreferences_saved prefs storage current :
  loadPreferences (savePreferences prefs storage) current =
    Returns (preferencesValue prefs).
Proof.
  unfold loadPreferences, savePreferences. rewrite lookup_insert_eq.
  pose proof (JSON_print_nonempty _ (preferencesValue_encoded prefs)) as Hne.
  destruct (String.eqb_spec (JSON_print (preferencesValue prefs)) ""); [done|].
  cbn [negb]. unfold parseOrThrow.
  by rewrite (JSON_parse_print _ (preferencesValue_encoded prefs)).
Qed.

Lemma handleSave_preferences_key prefs storage article :
  (handleSave prefs storage article).2 !! "scitok-preferences" =
    Some (JSON_print (preferencesValue (handleSave prefs storage article).1)).
Proof.
  unfold handleSave. cbn [fst snd]. destruct (negb _).
  - rewrite lookup_insert_ne by apply savedKey_not_preferences.
    unfold savePreferences. by rewrite lookup_insert_eq.
  - rewrite lookup_delete_ne by apply savedKey_not_preferences.
    unfold savePreferences. by rewrite lookup_insert_eq.
Qed.

Lemma loadPreferences_stored prefs storage current :
  storage !! "scitok-preferences" = Some (JSON_print (preferencesValue prefs)) ->
  loadPreferences storage current = Returns (preferencesValue prefs).
Proof.
  intros Hget. unfold loadPreferences. rewrite Hget.
  pose proof (JSON_print_nonempty _ (preferencesValue_encoded prefs)) as Hne.
  destruct (String.eqb_spec (JSON_print (preferencesValue prefs)) ""); [done|].
  cbn [negb]. unfold parseOrThrow.
  by rewrite (JSON_parse_print _ (preferencesValue_encoded prefs)).
Qed.

Lemma savedValue_snapshot storage savedId article :
  storage !! ("scitok-saved-" +:+ savedId) = Some (JSON_print (articleValue article)) ->
  savedValue storage savedId = Some (articleValue article).
Proof.
  intros Hget. unfold savedValue. rewrite Hget.
  pose proof (JSON_print_nonempty _ (articleValue_encoded article)) as Hne.
  destruct (String.eqb_spec (JSON_print (articleValue article)) ""); [done|].
  by rewrite (JSON_parse_print _ (articleValue_encoded article)).
Qed.

(** The snapshot of another id is not touched by a save or an unsave. *)
Lemma handleSave_other_snapshot prefs storage article savedId :
  savedId ≠ id article ->
  (handleSave prefs storage article).2 !! ("scitok-saved-" +:+ savedId) =
    storage !! ("scitok-saved-" +:+ savedId).
Proof.
  intros Hne. unfold handleSave. cbn [snd].
  assert (Hkey : "scitok-saved-" +:+ id article ≠ "scitok-saved-" +:+ savedId).
  { intros H. apply savedKey_inj in H. congruence. }
  destruct (negb _).
  - rewrite lookup_insert_ne by done. unfold savePreferences.
    rewrite lookup_insert_ne; [done|]. intros H. symmetry in H.
    by apply savedKey_not_preferences in H.
  - rewrite lookup_delete_ne by done. unfold savePreferences.
    rewrite lookup_insert_ne; [done|]. intros H. symmetry in H.
    by apply savedKey_not_preferences in H.
Qed.

Lemma likeAndSave_snapshot prefs storage article savedId :
  (likeAndSave prefs storage article).2 !! ("scitok-saved-" +:+ savedId) =
    storage !! ("scitok-saved-" +:+ savedId).
Proof.
  unfold likeAndSave, savePreferences. cbn [snd].
  rewrite lookup_insert_ne; [done|]. intros H. symmetry in H.
  by apply savedKey_not_preferences in H.
Qed.

Lemma omap_ext_in {A B} (f g : A -> option B) (l : list A) :
  (forall x, x ∈ l -> f x = g x) -> omap f l = omap g l.
Proof.
  induction l as [|x l IH]; intros H; [done|].
  change (omap f (x :: l))
    with (match f x with Some y => y :: omap f l | None => omap f l end).
  change (omap g (x :: l))
    with (match g x with Some y => y :: omap g l | None => omap g l end).
  rewrite (H x) by apply list_elem_of_here.
  rewrite IH; [done|]. intros y Hy. by apply H, list_elem_of_further.
Qed.

Lemma savedValue_ext storage storage' savedId :
  storage' !! ("scitok-saved-" +:+ savedId) = storage !! ("scitok-saved-" +:+ savedId) ->
  savedValue storage' savedId = savedValue storage savedId.
Proof. unfold savedValue. by intros ->. Qed.

(** Under [snapshotsStored] the list of saved articles is returned, with
    one value for each saved id. *)
Lemma getSavedArticles_stored prefs storage :
  snapshotsStored prefs storage ->
  exists values, getSavedArticles storage prefs = Returns values /\
                 length values = length (savedArticles prefs).
Proof.
  intros Hstored. unfold getSavedArticles.
  destruct (mapOutcome_readSaved storage (savedArticles prefs)) as (vs & -> & Hvs).
  { intros savedId saved Hin Hget Hne.
    destruct (Hstored savedId Hin) as (text & v & Hget' & _ & Hparse & _).
    assert (saved = text) as -> by congruence. by exists v. }
  simpl. eexists. split; [done|]. rewrite Hvs. clear Hvs.
  assert (Hall : forall savedId, savedId ∈ savedArticles prefs ->
                   exists v, savedValue storage savedId = Some v).
  { intros savedId Hin.
    destruct (Hstored savedId Hin) as (text & v & Hget & Hne & Hparse & Htruthy).
    exists v. unfold savedValue. rewrite Hget.
    destruct (String.eqb_spec text ""); [done|]. by rewrite Hparse, Htruthy. }
  clear Hstored. induction (savedArticles prefs) as [|savedId ids IH]; [done|].
  destruct (Hall savedId) as [v Hv]; [apply list_elem_of_here|].
  change (omap (savedValue storage) (savedId :: ids))
    with (match savedValue storage savedId with
          | Some y => y :: omap (savedValue storage) ids
          | None => omap (savedValue storage) ids
          end).
  rewrite Hv. simpl. f_equal.
  apply IH. intros i Hi. by apply Hall, list_elem_of_further.
Qed.

Lemma perform_snapshotsStored (ps : UserPreferences * gmap string string)
  (a : userAction) :
  snapshotsStored ps.1 ps.2 -> snapshotsStored (perform ps a).1 (perform ps a).2.
Proof.
  destruct ps as [prefs storage]. intros Hstored. destruct a as [article|article].
  - intros savedId Hin. cbn [perform fst snd] in *.
    rewrite likeAndSave_snapshot. by apply Hstored.
  - intros savedId Hin. cbn [perform fst snd] in *.
    destruct (decide (savedId = id article)) as [->|Hne].
    + unfold handleSave in *. cbn [fst snd savedArticles] in *.
      case_bool_decide as Hsaved; cbn [negb] in *.
      * apply list_elem_of_filter in Hin as [Hin _]. done.
      * exists (JSON_print (articleValue article)), (articleValue article).
        rewrite lookup_insert_eq. split; [done|].
        split; [apply JSON_print_nonempty, articleValue_encoded|].
        split; [apply JSON_parse_print, articleValue_encoded|done].
    + rewrite handleSave_other_snapshot by done. apply Hstored.
      unfold handleSave in Hin. cbn [fst savedArticles] in Hin.
      case_bool_decide.
      * by apply list_elem_of_filter in Hin as [_ Hin].
      * apply elem_of_app in Hin as [Hin|Hin]; [done|].
        by apply list_elem_of_singleton in Hin.
Qed.

Lemma perform_preferences_key (ps : UserPreferences * gmap string string)
  (a : userAction) :
  (perform ps a).2 !! "scitok-preferences" =
    Some (JSON_print (preferencesValue (perform ps a).1)).
Proof.
  destruct a as [article|article]; cbn [perform].
  - unfold likeAndSave, savePreferences. cbn [fst snd]. by rewrite lookup_insert_eq.
  - apply handleSave_preferences_key.
Qed.

End StorageExtras.

(** X18.  What is stored is what is in memory: after [savePreferences],
    and after every like or save of an article, loading the preferences
    from storage returns, without a throw, the value of the preferences
    that the action left in the state. *)
Theorem preferences_survive_reload (prefs : UserPreferences)
  (storage : gmap string string) (current : json) (a : userAction) :
  loadPreferences (savePreferences prefs storage) current =
    Returns (preferencesValue prefs) /\
  loadPreferences (perform (prefs, storage) a).2 current =
    Returns (preferencesValue (perform (prefs, storage) a).1).
Proof.
  split; [apply loadPreferences_saved|].
  apply loadPreferences_stored, perform_preferences_key.
Qed.

(** X19.  Saving an article that is not saved appends its id to the saved
    ids and stores its snapshot, and the list of saved articles then ends
    with the value of that article: when the snapshots that storage holds
    for the ids saved before parse, the list is the one of before followed
    by the article. *)
Theorem saved_article_is_listed (prefs : UserPreferences)
  (storage : gmap string string) (article : Article) :
  id article ∉ savedArticles prefs ->
  (forall savedId saved,
     savedId ∈ savedArticles prefs ->
     storage !! ("scitok-saved-" +:+ savedId) = Some saved ->
     saved ≠ "" -> is_Some (JSON_parse saved)) ->
  savedArticles (handleSave prefs storage article).1 =
    savedArticles prefs ++ [id article] /\
  getSavedArticles (handleSave prefs storage article).2
    (handleSave prefs storage article).1 =
    Returns (omap (savedValue storage) (savedArticles prefs) ++ [articleValue article]).
Proof.
  intros Hnew Hparse.
  assert (Hsaved : savedArticles (handleSave prefs storage article).1 =
                   savedArticles prefs ++ [id article]).
  { unfold handleSave. cbn [fst savedArticles]. by rewrite bool_decide_eq_false_2. }
  split; [done|].
  assert (Hsnap : (handleSave prefs storage article).2 !! ("scitok-saved-" +:+ id article)
                  = Some (JSON_print (articleValue article))).
  { unfold handleSave. cbn [snd]. rewrite bool_decide_eq_false_2 by done.
    cbn [negb]. by rewrite lookup_insert_eq. }
  unfold getSavedArticles.
  destruct (mapOutcome_readSaved (handleSave prefs storage article).2
              (savedArticles (handleSave prefs storage article).1))
    as (vs & -> & Hvs).
  { intros savedId saved Hin Hget Hne. rewrite Hsaved in Hin.
    apply elem_of_app in Hin as [Hin|Hin].
    - rewrite handleSave_other_snapshot in Hget by congruence.
      by apply (Hparse savedId).
    - apply list_elem_of_singleton in Hin as ->.
      assert (saved = JSON_print (articleValue article)) as -> by congruence.
      exists (articleValue article).
      apply JSON_parse_print, articleValue_encoded. }
  simpl. f_equal. rewrite Hvs, Hsaved, omap_app. f_equal.
  - apply omap_ext_in. intros savedId Hin.
    apply savedValue_ext, handleSave_other_snapshot. congruence.
  - change (omap ?f [id article])
      with (match f (id article) with Some y => [y] | None => [] end).
    by rewrite (savedValue_snapshot _ _ article Hsnap).
Qed.

Lemma saved_article_is_listed_witness :
  getSavedArticles (handleSave initialPreferences ∅ (articleOf "p1")).2
    (handleSave initialPreferences ∅ (articleOf "p1")).1 =
    Returns [articleValue (articleOf "p1")].
Proof.
  destruct (saved_article_is_listed initialPreferences ∅ (articleOf "p1")) as [_ H].
  - apply not_elem_of_nil.
  - intros savedId saved Hin. by apply elem_of_nil in Hin.
  - exact H.
Defined.

(** X20.  Saving an article that is saved removes its id from the saved
    ids and deletes its snapshot, and leaves the snapshots of the other
    ids; saving an article and saving it again gives back the saved ids of
    before and leaves no snapshot of it. *)
Theorem unsave_removes_snapshot (prefs : UserPreferences)
  (storage : gmap string string) (article : Article) :
  (id article ∈ savedArticles prefs ->
   (id article ∉ savedArticles (handleSave prefs storage article).1) /\
   (handleSave prefs storage article).2 !! ("scitok-saved-" +:+ id article) = None /\
   forall savedId, savedId ≠ id article ->
     (savedId ∈ savedArticles (handleSave prefs storage article).1 <->
      savedId ∈ savedArticles prefs) /\
     (handleSave prefs storage article).2 !! ("scitok-saved-" +:+ savedId) =
       storage !! ("scitok-saved-" +:+ savedId)) /\
  (id article ∉ savedArticles prefs ->
   let once := handleSave prefs storage article in
   let twice := handleSave once.1 once.2 article in
   twice.1 = prefs /\
   twice.2 !! ("scitok-saved-" +:+ id article) = None).
Proof.
  split.
  - intros Hin. split; [|split].
    + unfold handleSave. cbn [fst savedArticles]. rewrite bool_decide_eq_true_2 by done.
      rewrite list_elem_of_filter. tauto.
    + unfold handleSave. cbn [snd]. rewrite bool_decide_eq_true_2 by done.
      cbn [negb]. apply lookup_delete_eq.
    + intros savedId Hne. split; [|by apply handleSave_other_snapshot].
      unfold handleSave. cbn [fst savedArticles]. rewrite bool_decide_eq_true_2 by done.
      rewrite list_elem_of_filter. tauto.
  - intros Hnew once twice.
    assert (Honce : savedArticles once.1 = savedArticles prefs ++ [id article]).
    { subst once. unfold handleSave. cbn [fst savedArticles].
      by rewrite bool_decide_eq_false_2. }
    assert (Hin : id article ∈ savedArticles once.1).
    { rewrite Honce. apply elem_of_app. right. apply list_elem_of_here. }
    split.
    + subst twice. unfold handleSave at 1. cbn [fst].
      rewrite bool_decide_eq_true_2 by done. rewrite Honce.
      rewrite filter_app, filter_cons, decide_False by tauto.
      rewrite filter_nil, app_nil_r.
      assert (Hfilter : filter (fun i => i ≠ id article) (savedArticles prefs) =
                        savedArticles prefs).
      { clear -Hnew. induction (savedArticles prefs) as [|x l IH]; [done|].
        rewrite filter_cons, decide_True.
        - rewrite IH; [done|]. intros H. apply Hnew. by apply list_elem_of_further.
        - intros ->. apply Hnew, list_elem_of_here. }
      rewrite Hfilter. subst once. by destruct prefs.
    + subst twice. unfold handleSave at 1. cbn [snd].
      rewrite bool_decide_eq_true_2 by done. cbn [negb]. apply lookup_delete_eq.
Qed.

Lemma unsave_removes_snapshot_witness :
  (handleSave (mkPrefs [] ["p1"; "p2"] []) oneSnapshot (articleOf "p2")).2
    !! "scitok-saved-p2" = None /\
  (handleSave (handleSave initialPreferences ∅ (articleOf "p1")).1
     (handleSave initialPreferences ∅ (articleOf "p1")).2 (articleOf "p1")).1
  = initialPreferences.
Proof.
  destruct (unsave_removes_snapshot (mkPrefs [] ["p1"; "p2"] []) oneSnapshot
              (articleOf "p2")) as [H1 _].
  destruct (unsave_removes_snapshot initialPreferences ∅ (articleOf "p1")) as [_ H2].
  split.
  - apply H1. apply list_elem_of_further, list_elem_of_here.
  - apply H2. apply not_elem_of_nil.
Defined.

(** X21.  Along every sequence of likes and saves that starts where every
    saved id has a stored snapshot that parses, as it is with no saved id
    at all, every saved id still has one; the list of saved articles is
    then returned without a throw and has one value for each saved id. *)
Theorem saves_keep_snapshots (ps : UserPreferences * gmap string string)
  (actions : list userAction) :
  snapshotsStored ps.1 ps.2 ->
  let ps' := fold_left perform actions ps in
  snapshotsStored ps'.1 ps'.2 /\
  exists values, getSavedArticles ps'.2 ps'.1 = Returns values /\
                 length values = length (savedArticles ps'.1).
Proof.
  intros Hstored ps'.
  assert (H : snapshotsStored ps'.1 ps'.2).
  { subst ps'. revert ps Hstored.
    induction actions as [|a actions IH]; intros ps Hstored; simpl; [done|].
    by apply IH, perform_snapshotsStored. }
  split; [done|]. by apply getSavedArticles_stored.
Qed.

Lemma saves_keep_snapshots_witness :
  exists values,
    getSavedArticles
      (fold_left perform
         [Save (articleOf "p1"); Like (articleOf "p1"); Save (articleOf "p2");
          Save (articleOf "p1")] (initialPreferences, brokenPreferences)).2
      (fold_left perform
         [Save (articleOf "p1"); Like (articleOf "p1"); Save (articleOf "p2");
          Save (articleOf "p1")] (initialPreferences, brokenPreferences)).1
    = Returns values.
Proof.
  destruct (saves_keep_snapshots (initialPreferences, brokenPreferences)
              [Save (articleOf "p1"); Like (articleOf "p1"); Save (articleOf "p2");
               Save (articleOf "p1")]) as [_ (values & H & _)].
  - intros savedId Hin. by apply elem_of_nil in Hin.
  - by exists values.
Defined.

(** X22.  The dark mode survives a reload, and its write leaves the
    preferences alone: loading it after it was saved returns the saved
    boolean, and the preferences load as before the write. *)
Theorem dark_mode_survives_reload (darkMode : bool) (storage : gmap string string)
  (current currentPreferences : json) :
  loadDarkMode (saveDarkMode darkMode storage) current = Returns (JBool darkMode) /\
  loadPreferences (saveDarkMode darkMode storage) currentPreferences =
    loadPreferences storage currentPreferences.
Proof.
  split.
  - unfold loadDarkMode, saveDarkMode. rewrite lookup_insert_eq.
    by destruct darkMode.
  - unfold loadPreferences, saveDarkMode. by rewrite lookup_insert_ne.
Qed.

(** ** Storage keys and citations *)

Section Keys.

Implicit Types (snap : AppState) (env : nat -> Oracle).

(** The keys that a fetch writes to storage are the keys of its draws. *)
Lemma fetchArticles_storage_keys snap env key batch :
  LocalStorageSetItem key batch ∈ fetchArticles snap env ->
  exists n, key = "scitok-" +:+
                  drawKey (getRecommendedTerms (userPreferences snap)) (env n).
Proof.
  unfold fetchArticles. destruct (loading snap); [by intros H; apply elem_of_nil in H|].
  intros Hin.
  assert (Hlog : LocalStorageSetItem key batch ∈ log (runLoop snap env)).
  { apply elem_of_cons in Hin as [?|Hin]; [done|].
    apply elem_of_app in Hin as [?|Hin]; [done|].
    apply elem_of_app in Hin as [Hin|Hin].
    - destruct (0 <? _)%nat; [|by apply elem_of_nil in Hin].
      by apply list_elem_of_singleton in Hin.
    - by apply list_elem_of_singleton in Hin. }
  assert (Hquiet : forall l, Forall quiet l -> LocalStorageSetItem key batch ∉ l).
  { intros l Hl Hl'. rewrite Forall_forall in Hl. by apply Hl in Hl'. }
  destruct (runLoop_progress snap env)
    as [[_ Hq]|[(k & _ & _ & Hq)|(n & pre & _ & _ & _ & _ & _ & Hq & Heq)]].
  - by apply Hquiet in Hq.
  - by apply Hquiet in Hq.
  - rewrite Heq in Hlog. apply elem_of_app in Hlog as [Hlog|Hlog].
    + by apply Hquiet in Hq.
    + exists n.
      apply elem_of_cons in Hlog as [?|Hlog]; [done|].
      apply elem_of_cons in Hlog as [?|Hlog]; [done|].
      apply list_elem_of_singleton in Hlog. congruence.
Qed.

Lemma recommended_in_vocabulary prefs t :
  likesWellFormed prefs -> t ∈ getRecommendedTerms prefs -> t ∈ SEARCH_TERMS.
Proof.
  intros (_ & _ & Hall) Ht. unfold getRecommendedTerms in Ht.
  destruct (0 <? length _)%nat; [|done].
  apply elem_of_app in Ht as [Ht|Ht]; [|done].
  apply (list_elem_of_fmap fst) in Ht as (e & -> & He).
  apply subseteq_take in He. rewrite sortDesc_perm in He. by apply Hall.
Qed.

(** The key of a vocabulary term, or of the term [undefined], is none of
    the other keys of the program. *)
Lemma vocabulary_key_apart t offset :
  t ∈ SEARCH_TERMS \/ t = "undefined" ->
  "scitok-" +:+ cacheKey t offset ≠ "scitok-preferences" /\
  "scitok-" +:+ cacheKey t offset ≠ "scitok-dark-mode" /\
  forall savedId, "scitok-" +:+ cacheKey t offset ≠ "scitok-saved-" +:+ savedId.
Proof.
  intros Ht.
  assert (Hcases : t ∈ "undefined" :: SEARCH_TERMS).
  { destruct Ht as [Ht| ->]; [by apply list_elem_of_further|apply list_elem_of_here]. }
  clear Ht. unfold SEARCH_TERMS in Hcases.
  repeat (apply elem_of_cons in Hcases as [->|Hcases]);
    try (by apply elem_of_nil in Hcases);
    (split; [|split; [|intros savedId]]);
    intros H; unfold cacheKey in H; cbv [String.append] in H; discriminate H.
Qed.

End Keys.

(** X23.  A fetch never overwrites the other entries of storage: when the
    liked topics are vocabulary terms, as likes leave them, every key that
    a fetch writes differs from the key of the preferences, from the key of
    the dark mode and from the key of every saved snapshot. *)
Theorem fetch_writes_spare_other_keys (snap : AppState) (env : nat -> Oracle)
  (key : string) (batch : list Article) :
  likesWellFormed (userPreferences snap) ->
  LocalStorageSetItem key batch ∈ fetchArticles snap env ->
  key ≠ "scitok-preferences" /\ key ≠ "scitok-dark-mode" /\
  forall savedId, key ≠ "scitok-saved-" +:+ savedId.
Proof.
  intros Hwf Hin.
  destruct (fetchArticles_storage_keys snap env key batch Hin) as [n ->].
  unfold drawKey. apply vocabulary_key_apart.
  unfold drawTerm.
  destruct (getRecommendedTerms (userPreferences snap) !! randomTerm (env n))
    as [t|] eqn:Ht; simpl; [|by right].
  left. apply (recommended_in_vocabulary (userPreferences snap)); [done|].
  by apply list_elem_of_lookup_2 in Ht.
Qed.

Lemma fetch_writes_spare_other_keys_witness :
  "scitok-ai-7" ≠ "scitok-preferences".
Proof.
  apply (fetch_writes_spare_other_keys initialState fiveEnv "scitok-ai-7"
           (batchOf (fiveEnv 0%nat))).
  - split; [constructor|]. split; [constructor|].
    intros e He. by apply elem_of_nil in He.
  - apply list_elem_of_In. vm_compute. tauto.
Defined.

(** X24.  The citation and the link of an article follow the url that the
    provider gave: the card shows the link exactly when the provider gave a
    non-empty url other than [#], the citation then ends with that url, and
    otherwise it ends with [Semantic Scholar], never with the sentinel. *)
Theorem citation_follows_provider_url (o : Oracle) (i : nat) (paper : Paper) :
  let article := toArticle o i paper in
  (showsLink article = true <->
   exists u, p_url paper = Some u /\ u ≠ "" /\ u ≠ "#") /\
  citation article =
    citationAuthors (authors article) +:+ " (" +:+ pretty (year article) +:+ "). " +:+
    title article +:+ ". Retrieved from " +:+
    (if showsLink article then url article else "Semantic Scholar").
Proof.
  intros article. subst article. unfold showsLink, citation, toArticle. simpl.
  destruct (p_url paper) as [u|]; simpl.
  - destruct (String.eqb_spec u "") as [->|Hne]; simpl.
    + split; [|done]. split; [done|]. by intros (u & [= <-] & Hu & _).
    + destruct (String.eqb_spec u "") as [|_]; [done|]. simpl.
      destruct (String.eqb_spec u "#") as [->|Hsharp]; simpl.
      * split; [|done]. split; [done|]. by intros (u & [= <-] & _ & Hu).
      * split; [|done]. split; [|done]. intros _. by exists u.
  - split; [|done]. split; [done|]. by intros (u & Hu & _).
Qed.
